(** * css-resolver: a shallow embedding of [test_resolver.py]

    The program is a chain of regular-expression rewrites over one CSS
    string, driven by a synchronous HTTP client.  The embedding has four
    layers:

    - [PyStr]: Python [str] values as lists of Unicode code points, with the
      string methods the program calls ([startswith], [in], [replace],
      [strip], [str(int)]);
    - [Base64]: [base64.b64encode];
    - [Re]: the backtracking matcher of Python's [re] module for the
      constructs the program's five patterns use, with [findall], [sub] and
      the replacement-template parser;
    - [Resolver]: the functions of [test_resolver.py], with the network, the file
      system and the module's global settings as section variables, and the
      observable effects (log output, HTTP requests, file accesses) collected
      in a trace. *)

From Stdlib Require Import String Ascii.
From Stdlib Require Import List NArith Arith Lia Bool.
Import ListNotations.

(* ===================================================================== *)
(** * Python strings *)
(* ===================================================================== *)

Module PyStr.

(** A character is a Unicode code point; a [str] is a sequence of them. *)
Definition char := N.
Definition pystr := list char.

(** Source literals.  A Rocq string literal cannot hold the double quote, so
    the double quote is written [dq]. *)
Definition lit (s : string) : pystr := map N_of_ascii (list_ascii_of_string s).
Arguments lit s%_string.
Definition dq : char := 34%N.
Definition sq : char := 39%N.

Definition char_eqb (a b : char) : bool := N.eqb a b.

Fixpoint str_eqb (a b : pystr) : bool :=
  match a, b with
  | [], [] => true
  | x :: a', y :: b' => char_eqb x y && str_eqb a' b'
  | _, _ => false
  end.

(** [s.startswith(p)] *)
Fixpoint startswith (p s : pystr) : bool :=
  match p, s with
  | [], _ => true
  | x :: p', y :: s' => char_eqb x y && startswith p' s'
  | _ :: _, [] => false
  end.

(** [p in s] *)
Fixpoint contains (p s : pystr) : bool :=
  startswith p s ||
  match s with
  | [] => false
  | _ :: s' => contains p s'
  end.

(** [s.replace(old, new)] for a non-empty [old]: the occurrences are taken
    from the left and do not overlap. *)
Fixpoint replace_ne (fuel : nat) (old new s : pystr) : pystr :=
  match fuel with
  | 0 => s
  | S fuel' =>
      match s with
      | [] => []
      | c :: s' =>
          if startswith old s
          then new ++ replace_ne fuel' old new (skipn (length old) s)
          else c :: replace_ne fuel' old new s'
      end
  end.

(** [s.replace('', new)]: [new] goes in front of every character and at the
    end. *)
Fixpoint interleave (new s : pystr) : pystr :=
  match s with
  | [] => new
  | c :: s' => new ++ c :: interleave new s'
  end.

(** [s.replace(old, new)] *)
Definition replace (old new s : pystr) : pystr :=
  match old with
  | [] => interleave new s
  | _ :: _ => replace_ne (length s) old new s
  end.

(** [Py_UNICODE_ISSPACE]: the test behind both [str.strip()] and the [\s]
    class of a [str] pattern. *)
Definition is_space (c : char) : bool :=
  ((9 <=? c) && (c <=? 13) || (28 <=? c) && (c <=? 32) ||
   (c =? 133) || (c =? 160) || (c =? 5760) ||
   (8192 <=? c) && (c <=? 8202) ||
   (c =? 8232) || (c =? 8233) || (c =? 8239) || (c =? 8287) ||
   (c =? 12288))%N.

Fixpoint lstrip (s : pystr) : pystr :=
  match s with
  | c :: s' => if is_space c then lstrip s' else s
  | [] => []
  end.

Definition rstrip (s : pystr) : pystr := rev (lstrip (rev s)).

(** [s.strip()] *)
Definition strip (s : pystr) : pystr := rstrip (lstrip s).

(** [str(n)] for a non-negative integer. *)
Fixpoint digits (fuel : nat) (n : N) (acc : pystr) : pystr :=
  match fuel with
  | 0 => acc
  | S fuel' =>
      let acc' := (48 + n mod 10)%N :: acc in
      if (n <? 10)%N then acc' else digits fuel' (n / 10)%N acc'
  end.

Definition str_of_N (n : N) : pystr := digits (S (N.to_nat (N.log2 n))) n [].

End PyStr.
Import PyStr.

(* ===================================================================== *)
(** * base64 *)
(* ===================================================================== *)

Module Base64.

(** A byte is a number below 256. *)
Definition byte := N.
Definition bytes := list byte.

(** The standard alphabet: [A-Z a-z 0-9 + /]. *)
Definition b64char (i : N) : char :=
  (if i <? 26 then 65 + i
   else if i <? 52 then 97 + (i - 26)
   else if i <? 62 then 48 + (i - 52)
   else if i =? 62 then 43
   else 47)%N.

Definition pad : char := 61%N.

(** [base64.b64encode(b).decode('utf-8')]: three bytes give four characters;
    a last group of one or two bytes is padded with [=]. *)
Fixpoint b64encode (b : bytes) : pystr :=
  match b with
  | [] => []
  | [x] =>
      [ b64char (x / 4); b64char ((x mod 4) * 16); pad; pad ]%N
  | [x; y] =>
      [ b64char (x / 4); b64char ((x mod 4) * 16 + y / 16);
        b64char ((y mod 16) * 4); pad ]%N
  | x :: y :: z :: b' =>
      ( b64char (x / 4) :: b64char ((x mod 4) * 16 + y / 16)
        :: b64char ((y mod 16) * 4 + z / 64) :: b64char (z mod 64)
        :: b64encode b' )%N
  end.

End Base64.
Import Base64.

(* ===================================================================== *)
(** * Python's [re]: the backtracking matcher *)
(* ===================================================================== *)

Module Re.

(** The constructs that occur in the program's patterns.  A character class
    is its membership test; [Group n r] is the [n]-th capturing group. *)
Inductive regex : Type :=
| Eps
| Chr (p : char -> bool)
| Seq (r1 r2 : regex)
| Opt (r : regex)                (* r?   greedy *)
| Star (r : regex)               (* r*   greedy *)
| LazyStar (r : regex)           (* r*?  *)
| Group (n : nat) (r : regex).

Declare Scope re_scope.
Delimit Scope re_scope with re.
Bind Scope re_scope with regex.
Infix "-->" := Seq (at level 60, right associativity) : re_scope.

(** [r+] *)
Definition Plus (r : regex) : regex := Seq r (Star r).

(** A literal character and a literal string (what [re.escape] denotes). *)
Definition Ch (c : char) : regex := Chr (char_eqb c).

Fixpoint Lit (l : pystr) : regex :=
  match l with
  | [] => Eps
  | c :: l' => Seq (Ch c) (Lit l')
  end.

(** The groups that took part in a match, latest binding first. *)
Definition caps := list (nat * pystr).

Fixpoint group (n : nat) (cs : caps) : option pystr :=
  match cs with
  | [] => None
  | (m, v) :: cs' => if Nat.eqb n m then Some v else group n cs'
  end.

Definition result := option (caps * pystr).
Definition kont := pystr -> caps -> result.

(** One more round of a repetition is taken only if the body consumed
    input, as in the engine. *)
Definition progress (s : pystr) (k : kont) : kont :=
  fun s' cs' => if length s' <? length s then k s' cs' else None.

Definition orelse (a b : result) : result :=
  match a with
  | Some m => Some m
  | None => b
  end.

(** The rounds of [r*] and [r*?], [body] being the matcher of [r]: the
    greedy one tries another round before it goes on, the lazy one goes on
    first.  At most [n] rounds are taken; [length s] of them is all the
    input allows. *)
Fixpoint greedy (body : pystr -> caps -> kont -> result) (k : kont) (n : nat)
  (s : pystr) (cs : caps) {struct n} : result :=
  match n with
  | 0 => k s cs
  | S n' => orelse (body s cs (progress s (greedy body k n'))) (k s cs)
  end.

Fixpoint lazy (body : pystr -> caps -> kont -> result) (k : kont) (n : nat)
  (s : pystr) (cs : caps) {struct n} : result :=
  match n with
  | 0 => k s cs
  | S n' => orelse (k s cs) (body s cs (progress s (lazy body k n')))
  end.

(** [run r s cs k]: match [r] at the front of [s] and hand what is left to
    the continuation [k]; alternatives are tried in the engine's priority
    order and the first success is the answer. *)
Fixpoint run (r : regex) (s : pystr) (cs : caps) (k : kont) {struct r} : result :=
  match r with
  | Eps => k s cs
  | Chr p =>
      match s with
      | c :: s' => if p c then k s' cs else None
      | [] => None
      end
  | Seq r1 r2 => run r1 s cs (fun s' cs' => run r2 s' cs' k)
  | Opt r1 => orelse (run r1 s cs k) (k s cs)
  | Star r1 => greedy (run r1) k (length s) s cs
  | LazyStar r1 => lazy (run r1) k (length s) s cs
  | Group n r1 =>
      run r1 s cs
        (fun s' cs' => k s' ((n, firstn (length s - length s') s) :: cs'))
  end.

(** [pattern.match(s)]: the captures and the text after the match. *)
Definition re_match (r : regex) (s : pystr) : result :=
  run r s [] (fun s' cs => Some (cs, s')).

(** The scan behind [findall] and [sub]: the leftmost match, then on from
    its end; a character no match starts at is copied.  None of the
    program's patterns matches the empty string (lemma [patterns_consuming]
    below), so a match of length 0 is not taken. *)
Inductive piece : Type :=
| Text (c : char)
| Match (whole : pystr) (cs : caps).

Fixpoint pieces (r : regex) (fuel : nat) (s : pystr) : list piece :=
  match fuel with
  | 0 => []
  | S fuel' =>
      match s with
      | [] => []
      | c :: s' =>
          match re_match r s with
          | Some (cs, rest) =>
              if length rest <? length s
              then Match (firstn (length s - length rest) s) cs
                     :: pieces r fuel' rest
              else Text c :: pieces r fuel' s'
          | None => Text c :: pieces r fuel' s'
          end
      end
  end.

Definition scan (r : regex) (s : pystr) : list piece := pieces r (length s) s.

(** [pattern.findall(s)], projected on group [g] (a group that took no part
    gives the empty string). *)
Definition group_or_empty (g : nat) (cs : caps) : pystr :=
  match group g cs with
  | Some v => v
  | None => []
  end.

Fixpoint matches_group (g : nat) (ps : list piece) : list pystr :=
  match ps with
  | [] => []
  | Text _ :: ps' => matches_group g ps'
  | Match _ cs :: ps' => group_or_empty g cs :: matches_group g ps'
  end.

Definition findall_group (r : regex) (g : nat) (s : pystr) : list pystr :=
  matches_group g (scan r s).

(** ** Replacement templates ([re._parser.parse_template]) *)

Inductive titem : Type :=
| TLit (c : char)
| TGroup (n : nat).

Definition is_digit (c : char) : bool := ((48 <=? c) && (c <=? 57))%N.
Definition is_octdigit (c : char) : bool := ((48 <=? c) && (c <=? 55))%N.
Definition is_ascii_letter (c : char) : bool :=
  ((65 <=? c) && (c <=? 90) || (97 <=? c) && (c <=? 122))%N.

Definition digit_val (c : char) : N := (c - 48)%N.

(** [int(name)] for a string of ASCII digits *)
Definition int_of (ds : pystr) : N :=
  fold_left (fun acc d => (10 * acc + digit_val d)%N) ds 0%N.

(** [ESCAPES]: [\a \b \f \n \r \t \v \\] *)
Definition escape (c : char) : option char :=
  (if c =? 97 then Some 7
   else if c =? 98 then Some 8
   else if c =? 102 then Some 12
   else if c =? 110 then Some 10
   else if c =? 114 then Some 13
   else if c =? 116 then Some 9
   else if c =? 118 then Some 11
   else if c =? 92 then Some 92
   else None)%N.

(** [getuntil(">")]: the name up to the terminator and the text after it. *)
Fixpoint getuntil (t : char) (s : pystr) : option (pystr * pystr) :=
  match s with
  | [] => None
  | c :: s' =>
      if char_eqb c t then Some ([], s')
      else match getuntil t s' with
           | Some (name, rest) => Some (c :: name, rest)
           | None => None
           end
  end.

Definition tcons (i : titem) (r : option (list titem)) : option (list titem) :=
  match r with
  | Some l => Some (i :: l)
  | None => None
  end.

Definition addgroup (groups : nat) (index : N) (r : option (list titem))
  : option (list titem) :=
  if (N.of_nat groups <? index)%N then None   (* invalid group reference *)
  else tcons (TGroup (N.to_nat index)) r.

(** The template of a pattern with [groups] capturing groups, none of them
    named.  [None] is the [re.error] (or [IndexError]) the parser raises. *)
Fixpoint parse_template (groups : nat) (fuel : nat) (src : pystr)
  : option (list titem) :=
  match fuel with
  | 0 => match src with [] => Some [] | _ => None end
  | S fuel' =>
      let parse := parse_template groups fuel' in
      match src with
      | [] => Some []
      | c0 :: src1 =>
          if negb (c0 =? 92)%N then tcons (TLit c0) (parse src1)
          else
            match src1 with
            | [] => None                       (* bad escape (end of pattern) *)
            | c :: rest =>
                if (c =? 103)%N then           (* \g<...> *)
                  match rest with
                  | 60%N :: rest1 =>
                      match getuntil 62%N rest1 with
                      | None => None           (* missing >, unterminated name *)
                      | Some ([], _) => None   (* missing group name *)
                      | Some (name, rest2) =>
                          if forallb is_digit name
                          then addgroup groups (int_of name) (parse rest2)
                          else None            (* not the name of a group *)
                      end
                  | _ => None                  (* missing < *)
                  end
                else if (c =? 48)%N then       (* \0, \0o, \0oo *)
                  match rest with
                  | d1 :: rest1 =>
                      if is_octdigit d1 then
                        match rest1 with
                        | d2 :: rest2 =>
                            if is_octdigit d2
                            then tcons (TLit ((digit_val d1 * 8 + digit_val d2)
                                              mod 256)%N) (parse rest2)
                            else tcons (TLit (digit_val d1)) (parse rest1)
                        | [] => tcons (TLit (digit_val d1)) (parse rest1)
                        end
                      else tcons (TLit 0%N) (parse rest)
                  | [] => tcons (TLit 0%N) (parse rest)
                  end
                else if is_digit c then        (* \1 .. \99, or \ooo *)
                  match rest with
                  | d1 :: rest1 =>
                      if is_digit d1 then
                        match rest1 with
                        | d2 :: rest2 =>
                            if is_octdigit c && is_octdigit d1 && is_octdigit d2
                            then
                              let v := (digit_val c * 64 + digit_val d1 * 8
                                        + digit_val d2)%N in
                              if (255 <? v)%N then None  (* outside 0-0o377 *)
                              else tcons (TLit v) (parse rest2)
                            else addgroup groups
                                   (digit_val c * 10 + digit_val d1)%N
                                   (parse rest1)
                        | [] => addgroup groups
                                  (digit_val c * 10 + digit_val d1)%N
                                  (parse rest1)
                        end
                      else addgroup groups (digit_val c) (parse rest)
                  | [] => addgroup groups (digit_val c) (parse rest)
                  end
                else
                  match escape c with
                  | Some e => tcons (TLit e) (parse rest)
                  | None =>
                      if is_ascii_letter c then None       (* bad escape *)
                      else tcons (TLit 92%N) (tcons (TLit c) (parse rest))
                  end
            end
      end
  end.

(** [match.expand(template)] *)
Fixpoint expand (t : list titem) (whole : pystr) (cs : caps) : pystr :=
  match t with
  | [] => []
  | TLit c :: t' => c :: expand t' whole cs
  | TGroup 0 :: t' => whole ++ expand t' whole cs
  | TGroup n :: t' => group_or_empty n cs ++ expand t' whole cs
  end.

Fixpoint substitute (t : list titem) (ps : list piece) : pystr :=
  match ps with
  | [] => []
  | Text c :: ps' => c :: substitute t ps'
  | Match whole cs :: ps' => expand t whole cs ++ substitute t ps'
  end.

(** [re.sub(r, repl, s)] for a [repl] without a backslash, which is taken
    as it is. *)
Definition sub_plain (r : regex) (repl s : pystr) : pystr :=
  substitute (map TLit repl) (scan r s).

(** [re.sub(r, repl, s)] for a pattern with [groups] groups and any string
    [repl]; [None] when the template is refused. *)
Definition sub (groups : nat) (r : regex) (repl s : pystr) : option pystr :=
  match parse_template groups (length repl) repl with
  | Some t => Some (substitute t (scan r s))
  | None => None
  end.

(** Whether the scan finds a match of [r] in [s] ([pattern.search(s)] is
    not [None]). *)
Definition is_match (p : piece) : bool :=
  match p with
  | Match _ _ => true
  | Text _ => false
  end.

Definition has_match (r : regex) (s : pystr) : bool :=
  existsb is_match (scan r s).

(** The text the pieces of a scan were cut from. *)
Fixpoint original (ps : list piece) : pystr :=
  match ps with
  | [] => []
  | Text c :: ps' => c :: original ps'
  | Match whole _ :: ps' => whole ++ original ps'
  end.

(** ** The language of a pattern

    The strings a pattern can match in full, with no account of priorities:
    the reference the matcher is checked against. *)
Inductive lang : regex -> pystr -> Prop :=
| L_Eps : lang Eps []
| L_Chr p c : p c = true -> lang (Chr p) [c]
| L_Seq r1 r2 a b : lang r1 a -> lang r2 b -> lang (Seq r1 r2) (a ++ b)
| L_Opt_take r a : lang r a -> lang (Opt r) a
| L_Opt_skip r : lang (Opt r) []
| L_Star_stop r : lang (Star r) []
| L_Star_round r a b : lang r a -> lang (Star r) b -> lang (Star r) (a ++ b)
| L_Lazy_stop r : lang (LazyStar r) []
| L_Lazy_round r a b :
    lang r a -> lang (LazyStar r) b -> lang (LazyStar r) (a ++ b)
| L_Group n r a : lang r a -> lang (Group n r) a.

End Re.
Import Re.

(* ===================================================================== *)
(** * The program *)
(* ===================================================================== *)

Module Resolver.

Local Open Scope re_scope.
Local Open Scope N_scope.

(** ** The five patterns

    In the comments [Q] stands for the class of the two quote characters,
    the single and the double quote. *)

Definition space : regex := Chr is_space.                        (* \s   *)
Definition dot : regex := Chr (fun c => negb (c =? 10)).         (* .    *)
Definition quote : regex := Chr (fun c => (c =? 39) || (c =? 34)). (* [Q]  *)
Definition not_star : regex := Chr (fun c => negb (c =? 42)).    (* [^*] *)
Definition not_star_slash : regex :=
  Chr (fun c => negb ((c =? 42) || (c =? 47))).                  (* [^*/] *)
Definition star : regex := Ch 42.
Definition slash : regex := Ch 47.

(** [/\*[^*]*\*+(?:[^*/][^*]*\*+)*/] *)
Definition comment_re : regex :=
  slash --> star --> Star not_star --> Plus star -->
  Star (not_star_slash --> Star not_star --> Plus star) --> slash.

(** [\s+] *)
Definition spaces_re : regex := Plus space.

(** [@import\s+(url\()?[Q]?(.*?)[Q]?\)?;] *)
Definition import_re : regex :=
  Lit (lit "@import") --> Plus space --> Opt (Group 1 (Lit (lit "url("))) -->
  Opt quote --> Group 2 (LazyStar dot) --> Opt quote --> Opt (Ch 41) --> Ch 59.

(** [url\([Q]?(.*?)[Q]?\)] *)
Definition asset_re : regex :=
  Lit (lit "url(") --> Opt quote --> Group 1 (LazyStar dot) -->
  Opt quote --> Ch 41.

(** [@import\s+(?:url\()?[Q]?{re.escape(url)}[Q]?\)?;] *)
Definition import_stmt_re (url : pystr) : regex :=
  Lit (lit "@import") --> Plus space --> Opt (Lit (lit "url(")) -->
  Opt quote --> Lit url --> Opt quote --> Opt (Ch 41) --> Ch 59.

(** ** The world and the trace *)

(** What the program reads of a [requests.Response]. *)
Record Response : Type := {
  status_code : N;
  text : pystr;                      (* the body, decoded *)
  content : bytes;                   (* the body, raw *)
  content_type : option pystr        (* headers.get('content-type') *)
}.

(** [requests.get] returns a response or raises an exception, whose
    [str()] is kept. *)
Inductive fetch : Type :=
| Got (r : Response)
| Raised (msg : pystr).

(** The module's global variables that the functions read.  [headers] is
    [None] or the user agent of the one header. *)
Record Globals : Type := {
  filepath : pystr;
  log_method : N;
  log_level : N;
  headers : option pystr
}.

(** What the program does to the outside, in order.  [Console prefix content]
    is the line [_log] prints for a message and an optional prefix (the
    colour codes and the upper-casing of the prefix are left out). *)
Inductive event : Type :=
| FileLog (line : pystr)
| Console (prefix : option pystr) (content : pystr)
| Get (url : pystr) (hdrs : option pystr)
| Exists (path : pystr)
| Read (path : pystr).

Definition trace := list event.

(** A computation that runs to its end has a value and a trace; one that
    may exhaust the recursion budget is an [option] of that. *)
Definition W (A : Type) : Type := (A * trace)%type.
Definition M (A : Type) : Type := option (W A).

Definition retW {A} (a : A) : W A := (a, []).
Definition bindW {A B} (m : W A) (f : A -> W B) : W B :=
  let (a, t1) := m in let (b, t2) := f a in (b, t1 ++ t2).
Definition tell (t : trace) : W unit := (tt, t).

Definition retM {A} (a : A) : M A := Some (a, []).
Definition bindM {A B} (m : M A) (f : A -> M B) : M B :=
  match m with
  | None => None
  | Some (a, t1) =>
      match f a with
      | None => None
      | Some (b, t2) => Some (b, t1 ++ t2)
      end
  end.
Definition lift {A} (m : W A) : M A := Some m.

Declare Scope w_scope.
Delimit Scope w_scope with W.
Declare Scope m_scope.
Delimit Scope m_scope with M.
Notation "x <- m ;; k" := (bindW m (fun x => k))
  (at level 61, m at next level, right associativity) : w_scope.
Notation "m ;; k" := (bindW m (fun _ => k))
  (at level 61, right associativity) : w_scope.
Notation "x <- m ;; k" := (bindM m (fun x => k))
  (at level 61, m at next level, right associativity) : m_scope.
Notation "m ;; k" := (bindM m (fun _ => k))
  (at level 61, right associativity) : m_scope.

Definition mem (x : N) (l : list N) : bool := existsb (N.eqb x) l.

Definition when (b : bool) (m : W unit) : W unit := if b then m else retW tt.

Definition f_none : pystr := lit "None".

Section Program.

Variable g : Globals.
Variable requests_get : pystr -> option pystr -> fetch.
Variable fs : pystr -> option pystr.          (* a path and the file there *)
Variable re_error : pystr -> pystr.           (* str() of the re.error of a template *)

(** [_log(content, prefix)] *)
Definition _log (content : pystr) (prefix : option pystr) : W unit :=
  (when (mem (log_method g) [2; 3]) (tell [FileLog (content ++ [10])]) ;;
   when (mem (log_method g) [1; 3]) (tell [Console prefix content]))%W.

(** [test_minify_css] *)
Definition remove_comments (css : pystr) : pystr :=
  sub_plain comment_re [] css.
Definition collapse_spaces (css : pystr) : pystr :=
  sub_plain spaces_re (lit " ") css.

Definition test_minify_css (css : pystr) : pystr :=
  let css := remove_comments css in
  let css := collapse_spaces css in
  let css := strip css in
  css.

(** [test_import_extractor]: [findall] gives the pair of both groups and the
    loop keeps the second. *)
Definition test_import_extractor (css : pystr) : list pystr :=
  findall_group import_re 2 css.

(** [test_asset_extractor] *)
Definition test_asset_extractor (css : pystr) : W (list pystr) :=
  (when (mem (log_level g) [1; 2]) (_log (lit "Extracting URLs...") None) ;;
   retW (findall_group asset_re 1 css))%W.

Definition verbose : option pystr := Some (lit "verbose").

(** The [except Exception as e] handler of both resolvers. *)
Definition on_exception (url msg : pystr) : W unit :=
  when (mem (log_level g) [1; 2])
       (_log (lit "Error embedding " ++ url) (Some msg)).

(** The body of the loop of [test_import_resolver], for one [url], with the
    document so far; [resolve] is the recursive [test_resolve_css]. *)
Definition import_body (resolve : pystr -> M pystr) (embedded url : pystr)
  : M pystr :=
  (_ <- lift (when (log_level g =? 2)
               (_log (lit "Embedding content of " ++ url ++ lit "...") verbose)) ;;
   if startswith (lit "/") url && mem (log_level g) [1; 2]
   then
     _ <- lift (_log (lit "Skipping broken import url: " ++ url) None) ;;
     retM embedded
   else
     _ <- lift (when (log_level g =? 2)
                 (_log (lit "Requesting " ++ url ++ lit "...") verbose)) ;;
     _ <- lift (tell [Get url (headers g)]) ;;
     match requests_get url (headers g) with
     | Raised msg => _ <- lift (on_exception url msg) ;; retM embedded
     | Got response =>
         if status_code response =? 200
         then
           _ <- lift (when (log_level g =? 2)
                       (_log (lit "Embedding " ++ url ++ lit "...") verbose)) ;;
           resolved_content <- resolve (text response) ;;
           match sub 0 (import_stmt_re url) resolved_content embedded with
           | None =>
               _ <- lift (on_exception url (re_error resolved_content)) ;;
               retM embedded
           | Some embedded' =>
               _ <- lift (_log (lit "Failed to download: " ++ url)
                               (Some (str_of_N (status_code response)))) ;;
               retM embedded'
           end
         else retM embedded
     end)%M.

Fixpoint import_loop (resolve : pystr -> M pystr) (urls : list pystr)
  (embedded : pystr) : M pystr :=
  match urls with
  | [] => retM embedded
  | url :: urls' =>
      (embedded' <- import_body resolve embedded url ;;
       import_loop resolve urls' embedded')%M
  end.

(** The body of the loop of [test_asset_resolver]. *)
Definition asset_body (embedded url : pystr) : W pystr :=
  (if contains (lit "data:") url
   then
     when (log_level g =? 2) (_log (lit "Skipping data url...") verbose) ;;
     retW embedded
   else if startswith (lit "/") url && mem (log_level g) [1; 2]
   then
     _log (lit "Skipping broken asset url: " ++ url) None ;;
     retW embedded
   else
     when (log_level g =? 2)
          (_log (lit "Requesting " ++ url ++ lit "...") verbose) ;;
     tell [Get url (headers g)] ;;
     match requests_get url (headers g) with
     | Raised msg => on_exception url msg ;; retW embedded
     | Got response =>
         if status_code response =? 200
         then
           when (log_level g =? 2)
                (_log (lit "Embedding " ++ url ++ lit "...") verbose) ;;
           let content_type :=
             match content_type response with
             | Some c => c
             | None => f_none
             end in
           let data := b64encode (content response) in
           retW (replace url
                   (lit "data:" ++ content_type ++ lit ";base64," ++ data)
                   embedded)
         else
           when (mem (log_level g) [1; 2])
                (_log (lit "Failed to download: " ++ url)
                      (Some (str_of_N (status_code response)))) ;;
           retW embedded
     end)%W.

(** [test_asset_resolver] *)
Fixpoint test_asset_resolver (urls : list pystr) (css : pystr) : W pystr :=
  match urls with
  | [] => retW css
  | url :: urls' =>
      (embedded <- asset_body css url ;; test_asset_resolver urls' embedded)%W
  end.

(** [test_resolve_css].  The recursion through the import resolver has no
    bound in the source; [fuel] bounds its depth here, and [None] stands for
    a run that has not ended within it. *)
Fixpoint test_resolve_css (fuel : nat) (css : pystr) : M pystr :=
  match fuel with
  | O => None
  | S fuel' =>
      (let imports := test_import_extractor css in
       embedded <- import_loop (test_resolve_css fuel') imports css ;;
       assets <- lift (test_asset_extractor embedded) ;;
       lift (test_asset_resolver assets embedded))%M
  end.

(** [test_import_resolver]: its calls of [test_resolve_css] may nest [fuel]
    deep. *)
Definition test_import_resolver (fuel : nat) (urls : list pystr) (css : pystr)
  : M pystr :=
  import_loop (test_resolve_css fuel) urls css.

(** How a call of [test_extract] ends. *)
Inductive outcome : Type :=
| Returns (v : option pystr)        (* [None] for a bare [return] *)
| Raises (msg : pystr).

(** What [str()] gives for the [NameError] of a name that is bound nowhere. *)
Definition name_error (name : pystr) : pystr :=
  lit "name '" ++ name ++ lit "' is not defined".

(** [test_extract].  Once the document is loaded, line 168 calls
    [resolve_css], a name the file binds nowhere (its functions are
    [test_resolve_css] and [test_minify_css]): the call raises [NameError],
    and the rest of the body, the minifying and the [return embedded], is
    never reached, whatever [compress] is. *)
Definition test_extract (path : pystr) (compress : bool) : M outcome :=
  (if startswith (lit "http") path && contains (lit "://") path
   then
     _ <- lift (when (mem (log_level g) [1; 2])
                 (_log (lit "Downloading css file: " ++ path) None)) ;;
     _ <- lift (tell [Get (filepath g) (headers g)]) ;;
     match requests_get (filepath g) (headers g) with
     | Raised msg => retM (Raises msg)
     | Got response => retM (Raises (name_error (lit "resolve_css")))
     end
   else
     _ <- lift (tell [Exists (filepath g)]) ;;
     match fs (filepath g) with
     | None =>
         _ <- lift (_log (lit "The path " ++ filepath g
                          ++ lit " does not exist. Skipping...") None) ;;
         retM (Returns None)
     | Some css =>
         _ <- lift (tell [Read (filepath g)]) ;;
         retM (Raises (name_error (lit "resolve_css")))
     end)%M.

End Program.

(** ** Reading a run *)

(** The URLs [requests.get] was called with, in order. *)
Fixpoint requested (t : trace) : list pystr :=
  match t with
  | [] => []
  | Get url _ :: t' => url :: requested t'
  | _ :: t' => requested t'
  end.

(** The document a resolver hands back, without the trace. *)
Definition doc {A} (m : M A) : option A := option_map fst m.

(** A call returns when some recursion budget is enough for it. *)
Definition resolve_css_returns g requests_get re_error
  (css : pystr) (r : W pystr) : Prop :=
  exists fuel, test_resolve_css g requests_get re_error fuel css = Some r.

Definition import_resolver_returns g requests_get re_error
  (urls : list pystr) (css : pystr) (r : W pystr) : Prop :=
  exists fuel, test_import_resolver g requests_get re_error fuel urls css = Some r.

(** [f2] returns whatever [f1] returns. *)
Definition below (f1 f2 : pystr -> M pystr) : Prop :=
  forall s x, f1 s = Some x -> f2 s = Some x.

(** A fetch the resolvers count as failed: an exception, or a status other
    than 200. *)
Definition failed (f : fetch) : bool :=
  match f with
  | Raised _ => true
  | Got r => negb (status_code r =? 200)
  end.

End Resolver.
Import Resolver.

(* ===================================================================== *)
(** * Reference notions the program is compared with *)
(* ===================================================================== *)

Module Reference.

Local Open Scope N_scope.

(** ** Whitespace runs

    Collapsing runs of blanks in one pass over the string; [in_run] tells
    that the character before was a blank. *)
Fixpoint squeeze (in_run : bool) (s : pystr) : pystr :=
  match s with
  | [] => []
  | c :: s' =>
      if is_space c
      then if in_run then squeeze true s' else 32 :: squeeze true s'
      else c :: squeeze false s'
  end.

(** A string where every blank is a single space character standing alone;
    [after_blank] tells that the character before was a blank. *)
Fixpoint tidy (after_blank : bool) (s : pystr) : bool :=
  match s with
  | [] => true
  | c :: s' =>
      if is_space c
      then (c =? 32) && negb after_blank && tidy true s'
      else tidy false s'
  end.

(** ** [@import] statements

    The statements for a URL, in the variations the resolver's pattern
    allows: the keyword, blanks, an optional [url(], an optional quote, the
    URL, an optional quote, an optional [)], and the semicolon. *)
Definition optional_quote (q : pystr) : Prop := q = [] \/ q = [sq] \/ q = [dq].

Definition is_import_stmt (url m : pystr) : Prop :=
  exists ws o q1 q2 p,
    m = lit "@import" ++ ws ++ o ++ q1 ++ url ++ q2 ++ p ++ [59] /\
    ws <> [] /\ forallb is_space ws = true /\
    (o = [] \/ o = lit "url(") /\
    optional_quote q1 /\ optional_quote q2 /\
    (p = [] \/ p = [41]).

(** [rewritten stmt r s s']: [s'] is [s] read from the left, with a
    statement replaced by [r] wherever one starts, and a character copied
    where none does. *)
Inductive rewritten (stmt : pystr -> Prop) (r : pystr) : pystr -> pystr -> Prop :=
| rw_end : rewritten stmt r [] []
| rw_stmt m rest rest' :
    stmt m -> rewritten stmt r rest rest' ->
    rewritten stmt r (m ++ rest) (r ++ rest')
| rw_copy c s s' :
    (forall m rest, stmt m -> c :: s <> m ++ rest) ->
    rewritten stmt r s s' ->
    rewritten stmt r (c :: s) (c :: s').

(** [substituted old new s s']: [s'] is [s] read from the left, with [new]
    in place of [old] wherever [old] stands, and a character copied where
    it does not; after an occurrence the reading goes on behind it. *)
Inductive substituted (old new : pystr) : pystr -> pystr -> Prop :=
| sb_end : substituted old new [] []
| sb_hit rest rest' :
    substituted old new rest rest' ->
    substituted old new (old ++ rest) (new ++ rest')
| sb_copy c s s' :
    startswith old (c :: s) = false ->
    substituted old new s s' ->
    substituted old new (c :: s) (c :: s').

(** ** Stylesheets made of [@import] statements

    One statement with the text in front of it.  The URL holds no blank, no
    quote, no parenthesis and no semicolon; the text in front holds no [@]. *)
Record import_item : Type := {
  before : pystr;
  blank : pystr;
  opener : pystr;
  url : pystr;
  closer : pystr
}.

Definition url_char (c : char) : bool :=
  negb (is_space c || (c =? 59) || (c =? 39) || (c =? 34)
        || (c =? 40) || (c =? 41)).

Definition no_at (s : pystr) : bool := forallb (fun c => negb (c =? 64)) s.

Definition nonempty (s : pystr) : bool :=
  match s with
  | [] => false
  | _ :: _ => true
  end.

Definition is_opener (o : pystr) : bool :=
  existsb (str_eqb o)
    [ []; [sq]; [dq]; lit "url("; lit "url(" ++ [sq]; lit "url(" ++ [dq] ].

Definition is_closer (c : pystr) : bool :=
  existsb (str_eqb c) [ []; [sq]; [dq]; [41]; [sq; 41]; [dq; 41] ].

Definition item_ok (i : import_item) : bool :=
  no_at (before i) && nonempty (blank i) && forallb is_space (blank i)
  && is_opener (opener i) && forallb url_char (url i) && is_closer (closer i).

(** The statement of an item, and the statement with the text in front of
    it. *)
Definition item_stmt (i : import_item) : pystr :=
  lit "@import" ++ blank i ++ opener i ++ url i ++ closer i ++ [59].

Definition item_text (i : import_item) : pystr := before i ++ item_stmt i.

Definition stylesheet (items : list import_item) (tail : pystr) : pystr :=
  flat_map item_text items ++ tail.

(** ** The extractor's pattern from the right

    The ends of [import_re], named so that the matcher can be followed one
    part at a time: [[Q]?\)?;], then the lazy group in front of it, then the
    optional quote, then the optional [url(]. *)
Definition tail_re : regex := (Opt quote --> Opt (Ch 41) --> Ch 59)%re.
Definition capture_re : regex := (Group 2 (LazyStar dot) --> tail_re)%re.
Definition quoted_re : regex := (Opt quote --> capture_re)%re.
Definition opened_re : regex :=
  (Opt (Group 1 (Lit (lit "url("))) --> quoted_re)%re.

(** [stops p s]: a run of the class [p] cannot go on into [s]. *)
Definition stops (p : char -> bool) (s : pystr) : Prop :=
  match s with
  | [] => True
  | c :: _ => p c = false
  end.

(** A pattern every match of which takes at least one character. *)
Definition consuming (r : regex) : Prop := forall m, lang r m -> m <> [].

End Reference.
Import Reference.

(* ===================================================================== *)
(** * Settings and networks for the examples *)
(* ===================================================================== *)

Module Worlds.

Local Open Scope N_scope.

(** The module's settings as the file sets them at import. *)
Definition defaults : Globals :=
  {| filepath := []; log_method := 1; log_level := 1; headers := None |}.

(** [--log-level 0] *)
Definition quiet : Globals :=
  {| filepath := []; log_method := 1; log_level := 0; headers := None |}.

(** [--log-level 2] *)
Definition chatty : Globals :=
  {| filepath := []; log_method := 3; log_level := 2; headers := None |}.

Definition ok (body : pystr) (raw : bytes) (ctype : pystr) : fetch :=
  Got {| status_code := 200; text := body; content := raw;
         content_type := Some ctype |}.

Definition not_found : fetch :=
  Got {| status_code := 404; text := []; content := []; content_type := None |}.

(** What [requests] does with a URL that names no scheme. *)
Definition no_scheme : fetch := Raised (lit "No scheme supplied").

(** A network where every URL with a scheme answers 200 with an empty body,
    and any other URL is refused by [requests] itself. *)
Definition empty_net (url : pystr) (_ : option pystr) : fetch :=
  if contains (lit "://") url then ok [] [] (lit "text/css") else no_scheme.

(** The network of the end-to-end example: a stylesheet that refers to an
    image of the one byte FF. *)
Definition sub_css : pystr := lit ".x{background:url(http://h/i.png)}".

Definition example_net (url : pystr) (_ : option pystr) : fetch :=
  if str_eqb url (lit "http://h/sub.css") then ok sub_css [] (lit "text/css")
  else if str_eqb url (lit "http://h/i.png") then ok [] [255] (lit "image/png")
  else if contains (lit "://") url then not_found
  else no_scheme.

Definition no_files (_ : pystr) : option pystr := None.

Definition one_file (name content path : pystr) : option pystr :=
  if str_eqb path name then Some content else None.

Definition no_re_error (_ : pystr) : pystr := lit "bad escape".

(** Three [@import] statements, two of them for the same URL, in three of
    the variations. *)
Definition a_css : pystr := lit "http://x/a.css".
Definition b_css : pystr := lit "http://x/b.css".

Definition three_imports : list import_item :=
  [ {| before := []; blank := [32]; opener := lit "url(" ++ [dq];
       url := a_css; closer := [dq; 41] |};
    {| before := [32]; blank := [32]; opener := [sq];
       url := b_css; closer := [sq] |};
    {| before := [10]; blank := [32; 9]; opener := [];
       url := a_css; closer := [] |} ].

End Worlds.

(* ===================================================================== *)
(** * Stylesheets of [url()] references *)
(* ===================================================================== *)

Module AssetSheets.

Local Open Scope N_scope.

(** One [url(...)] reference with the text in front of it.  The URL is as
    in [import_item]; the text in front holds no opening parenthesis. *)
Record asset_item : Type := {
  a_before : pystr;
  a_open : pystr;
  a_url : pystr;
  a_close : pystr
}.

Definition no_paren (s : pystr) : bool := forallb (fun c => negb (c =? 40)) s.

Definition is_quote_opt (q : pystr) : bool :=
  existsb (str_eqb q) [ []; [sq]; [dq] ].

Definition asset_item_ok (i : asset_item) : bool :=
  no_paren (a_before i) && is_quote_opt (a_open i)
  && forallb url_char (a_url i) && is_quote_opt (a_close i).

Definition asset_ref (i : asset_item) : pystr :=
  lit "url(" ++ a_open i ++ a_url i ++ a_close i ++ [41].

Definition asset_text (i : asset_item) : pystr := a_before i ++ asset_ref i.

Definition asset_sheet (items : list asset_item) (tail : pystr) : pystr :=
  flat_map asset_text items ++ tail.

(** The ends of [asset_re]: [[Q]?\)], and the lazy group in front of it. *)
Definition asset_tail_re : regex := (Opt quote --> Ch 41)%re.
Definition asset_capture_re : regex :=
  (Group 1 (LazyStar dot) --> asset_tail_re)%re.

(** A pattern without a capturing group. *)
Fixpoint groupfree (r : regex) : bool :=
  match r with
  | Eps | Chr _ => true
  | Seq r1 r2 => groupfree r1 && groupfree r2
  | Opt r1 | Star r1 | LazyStar r1 => groupfree r1
  | Group _ _ => false
  end.

(** The characters an extracted import URL can hold: any but the semicolon
    and the newline; and an extracted asset URL: any but the closing
    parenthesis and the newline. *)
Definition import_url_char (c : char) : bool :=
  negb (c =? 59) && negb (c =? 10).
Definition asset_url_char (c : char) : bool :=
  negb (c =? 41) && negb (c =? 10).

(** The URLs the asset loop asks the network for. *)
Definition fetched (g : Globals) (url : pystr) : bool :=
  negb (contains (lit "data:") url)
  && negb (startswith (lit "/") url && mem (log_level g) [1; 2]).

(** Events that are log output. *)
Definition is_log (e : event) : bool :=
  match e with
  | FileLog _ | Console _ _ => true
  | _ => false
  end.

End AssetSheets.
Import AssetSheets.

(* ===================================================================== *)
(** * Properties of traces *)
(* ===================================================================== *)

Module Traces.

(** Every event of a computation satisfies [P]. *)
Definition allW {A} (P : event -> Prop) (w : W A) : Prop := Forall P (snd w).

Definition allM {A} (P : event -> Prop) (m : M A) : Prop :=
  forall a t, m = Some (a, t) -> Forall P t.

(** A request carries the headers [h]. *)
Definition with_headers (h : option pystr) (e : event) : Prop :=
  match e with
  | Get _ h' => h' = h
  | _ => True
  end.

(** An event that is no log output. *)
Definition not_log (e : event) : Prop := is_log e = false.

(** A replacement text without a backslash. *)
Definition plain (s : pystr) : bool := forallb (fun c => negb (c =? 92)%N) s.

(** A text without a slash. *)
Definition no_slash (s : pystr) : bool := forallb (fun c => negb (c =? 47)%N) s.

(** A text without a star. *)
Definition no_star (s : pystr) : bool := forallb (fun c => negb (c =? 42)%N) s.

(** An event that is neither a test for a file nor the reading of one. *)
Definition reads_no_file (e : event) : Prop :=
  match e with
  | Exists _ | Read _ => False
  | _ => True
  end.

(** The first and the last character of a text, if it has one. *)
Definition first_char (s : pystr) : option char := hd_error s.
Definition last_char (s : pystr) : option char := hd_error (rev s).

End Traces.
Import Traces.

(* ===================================================================== *)
(** * Facts about the string methods *)
(* ===================================================================== *)

Module PyStrFacts.

Lemma char_eqb_eq a b : char_eqb a b = true <-> a = b.
Proof. apply N.eqb_eq. Qed.

Lemma char_eqb_refl a : char_eqb a a = true.
Proof. apply N.eqb_refl. Qed.

Lemma str_eqb_eq a : forall b, str_eqb a b = true <-> a = b.
Proof.
  induction a as [|x a IH]; intros [|y b]; simpl; split; try easy.
  - intros H. apply andb_prop in H. destruct H as [E H].
    apply char_eqb_eq in E. apply IH in H. now subst.
  - intros H. injection H as -> ->. rewrite char_eqb_refl. now apply IH.
Qed.

Lemma startswith_app p s : startswith p (p ++ s) = true.
Proof.
  induction p as [|x p IH]; [reflexivity|].
  simpl. now rewrite char_eqb_refl.
Qed.

Lemma startswith_split p : forall s,
  startswith p s = true -> s = p ++ skipn (length p) s.
Proof.
  induction p as [|x p IH]; intros s H; [reflexivity|].
  destruct s as [|y s]; [discriminate|]. simpl in *.
  apply andb_prop in H. destruct H as [E H].
  apply char_eqb_eq in E. subst. f_equal. now apply IH.
Qed.

Lemma startswith_iff p s : startswith p s = true <-> exists r, s = p ++ r.
Proof.
  split.
  - intros H. eexists. now apply startswith_split.
  - intros [r ->]. apply startswith_app.
Qed.

Lemma contains_here p s : startswith p s = true -> contains p s = true.
Proof. intros H. destruct s; simpl in *; now rewrite H. Qed.

Lemma contains_later p c s : contains p s = true -> contains p (c :: s) = true.
Proof. intros H. simpl. rewrite H. apply orb_true_r. Qed.

Lemma contains_app p a s : contains p s = true -> contains p (a ++ s) = true.
Proof.
  intros H. induction a as [|c a IH]; [exact H|].
  now apply contains_later.
Qed.

Lemma contains_iff p s : contains p s = true <-> exists a b, s = a ++ p ++ b.
Proof.
  split.
  - induction s as [|c s IH]; simpl; intros H.
    + rewrite orb_false_r in H. apply startswith_iff in H.
      destruct H as [r ->]. now exists [], r.
    + apply orb_prop in H. destruct H as [H | H].
      * apply startswith_iff in H. destruct H as [r ->]. now exists [], r.
      * destruct (IH H) as (a & b & ->). now exists (c :: a), b.
  - intros (a & b & ->). apply contains_app, contains_here, startswith_app.
Qed.

Lemma contains_char c s :
  contains [c] s = false -> forallb (fun x => negb (x =? c)%N) s = true.
Proof.
  induction s as [|x s IH]; intros H; [reflexivity|].
  cbn [contains startswith] in H. apply orb_false_elim in H.
  destruct H as [H1 H2]. rewrite andb_true_r in H1.
  cbn [forallb]. rewrite (IH H2), andb_true_r.
  unfold char_eqb in H1. now rewrite N.eqb_sym, H1.
Qed.

(** ** [replace] *)

Lemma replace_ne_fuel old new : old <> [] -> forall f1 f2 s,
  length s <= f1 -> length s <= f2 ->
  replace_ne f1 old new s = replace_ne f2 old new s.
Proof.
  intros Hold. induction f1 as [|f1 IH]; intros f2 s H1 H2.
  - destruct s; [|simpl in H1; lia]. now destruct f2.
  - destruct f2 as [|f2].
    + destruct s; [reflexivity | simpl in H2; lia].
    + destruct s as [|c s]; [reflexivity|].
      cbn [replace_ne]. simpl in H1, H2.
      destruct (startswith old (c :: s)).
      * f_equal. destruct old as [|o old]; [congruence|].
        simpl. apply IH; rewrite length_skipn; lia.
      * f_equal. apply IH; lia.
Qed.

(** A document without the substring is left as it is. *)
Lemma replace_no_occurrence old new s :
  old <> [] -> contains old s = false -> replace old new s = s.
Proof.
  intros Hold. unfold replace. destruct old as [|o old]; [congruence|].
  induction s as [|c s IH]; intros H; [reflexivity|].
  cbn [length replace_ne]. simpl in H. apply orb_false_elim in H.
  destruct H as [H1 H2]. cbn [startswith]. rewrite H1. f_equal. now apply IH.
Qed.

(** The first occurrence from the left is replaced, and the rest of the
    document is treated alike. *)
Lemma replace_first_occurrence old new p : forall q,
  old <> [] ->
  (forall i, i < length p -> startswith old (skipn i (p ++ old ++ q)) = false) ->
  replace old new (p ++ old ++ q) = p ++ new ++ replace old new q.
Proof.
  intros q Hold. unfold replace. destruct old as [|o old]; [congruence|].
  induction p as [|c p IH]; intros H.
  - cbn [app]. destruct (o :: old ++ q) eqn:E; [discriminate|].
    cbn [length replace_ne]. rewrite <- E.
    change (o :: old ++ q) with ((o :: old) ++ q).
    rewrite startswith_app.
    change (S (length old)) with (length (o :: old)).
    rewrite skipn_app, skipn_all, Nat.sub_diag. cbn [skipn app].
    f_equal. apply replace_ne_fuel; [discriminate | | lia].
    apply (f_equal (@length _)) in E. simpl in E. rewrite length_app in E. lia.
  - cbn [app length replace_ne].
    pose proof (H 0 ltac:(simpl; lia)) as H0. cbn [skipn app] in H0.
    rewrite H0. f_equal. apply IH. intros i Hi. apply (H (S i)). simpl. lia.
Qed.

(** [replace] reads the document as [substituted] says, and nothing else
    does. *)
Lemma replace_ne_substituted old new : old <> [] -> forall fuel s,
  length s <= fuel -> substituted old new s (replace_ne fuel old new s).
Proof.
  intros Hold. induction fuel as [|fuel IH]; intros s H.
  - destruct s; [constructor | simpl in H; lia].
  - destruct s as [|c s]; [constructor|]. cbn [replace_ne].
    destruct (startswith old (c :: s)) eqn:E.
    + pose proof (startswith_split old (c :: s) E) as Hs.
      rewrite Hs at 1. apply sb_hit. apply IH.
      rewrite length_skipn. simpl in H.
      destruct old; [congruence | simpl; lia].
    + apply sb_copy; [exact E|]. apply IH. simpl in H. lia.
Qed.

Lemma replace_substituted old new s :
  old <> [] -> substituted old new s (replace old new s).
Proof.
  intros Hold. unfold replace. destruct old as [|o old]; [congruence|].
  now apply replace_ne_substituted.
Qed.

Lemma substituted_unique old new s a :
  old <> [] -> substituted old new s a ->
  forall b, substituted old new s b -> a = b.
Proof.
  intros Hold H. induction H as [|rest rest' H IH|c s s' Hc H IH]; intros b Hb.
  - inversion Hb as [|r r' Hr E|]; [reflexivity|].
    destruct old; [congruence | discriminate].
  - inversion Hb as [E|r r' Hr E|c s s' Hc Hs E].
    + destruct old; [congruence | discriminate].
    + apply app_inv_head in E. subst r. f_equal. now apply IH.
    + rewrite E, startswith_app in Hc. discriminate.
  - inversion Hb as [|r r' Hr E|c0 s0 s0' Hc0 Hs0].
    + rewrite <- E, startswith_app in Hc. discriminate.
    + f_equal. now apply IH.
Qed.

(** ** [strip] *)

Lemma lstrip_length s : length (lstrip s) <= length s.
Proof.
  induction s as [|c s IH]; simpl; [lia|].
  destruct (is_space c); simpl; lia.
Qed.

Lemma lstrip_idem s : lstrip (lstrip s) = lstrip s.
Proof.
  induction s as [|c s IH]; simpl; [reflexivity|].
  destruct (is_space c) eqn:E; [exact IH|]. simpl. now rewrite E.
Qed.

Lemma lstrip_nil_iff s : lstrip s = [] <-> forallb is_space s = true.
Proof.
  induction s as [|c s IH]; simpl; [tauto|].
  destruct (is_space c); simpl; [exact IH|]. split; discriminate.
Qed.

Lemma lstrip_app a b :
  lstrip (a ++ b) = if forallb is_space a then lstrip b else lstrip a ++ b.
Proof.
  induction a as [|c a IH]; simpl; [reflexivity|].
  destruct (is_space c); simpl; [exact IH | reflexivity].
Qed.

Lemma rstrip_length s : length (rstrip s) <= length s.
Proof.
  unfold rstrip. rewrite length_rev.
  etransitivity; [apply lstrip_length|]. now rewrite length_rev.
Qed.

Lemma rstrip_idem s : rstrip (rstrip s) = rstrip s.
Proof. unfold rstrip. now rewrite rev_involutive, lstrip_idem. Qed.

(** [rstrip] from the left end of the string. *)
Lemma rstrip_cons c s :
  rstrip (c :: s) =
  match rstrip s with
  | [] => if is_space c then [] else [c]
  | r => c :: r
  end.
Proof.
  unfold rstrip. simpl. rewrite lstrip_app.
  destruct (forallb is_space (rev s)) eqn:E.
  - apply lstrip_nil_iff in E. rewrite E. simpl. now destruct (is_space c).
  - destruct (lstrip (rev s)) as [|x l] eqn:L.
    + apply lstrip_nil_iff in L. congruence.
    + rewrite rev_app_distr. simpl.
      destruct (rev l ++ [x]) eqn:R; [now destruct (rev l)|reflexivity].
Qed.

Lemma strip_length s : length (strip s) <= length s.
Proof.
  unfold strip. etransitivity; [apply rstrip_length | apply lstrip_length].
Qed.

(** A string that starts with no blank still does after [rstrip]. *)
Lemma lstrip_rstrip_fixed s : lstrip s = s -> lstrip (rstrip s) = rstrip s.
Proof.
  destruct s as [|c s]; [reflexivity|]. simpl.
  destruct (is_space c) eqn:E.
  - intros H. pose proof (lstrip_length s) as L. rewrite H in L. simpl in L. lia.
  - intros _. rewrite rstrip_cons. rewrite E.
    destruct (rstrip s); simpl; now rewrite E.
Qed.

Lemma strip_idem s : strip (strip s) = strip s.
Proof.
  unfold strip.
  rewrite (lstrip_rstrip_fixed (lstrip s)) by apply lstrip_idem.
  apply rstrip_idem.
Qed.

End PyStrFacts.

(* ===================================================================== *)
(** * The matcher against the language of a pattern *)
(* ===================================================================== *)

Module ReFacts.

Lemma orelse_none (a b : result) : orelse a b = None <-> a = None /\ b = None.
Proof.
  destruct a; simpl; split; intros H; try tauto; try discriminate.
Qed.

Lemma orelse_some (a b : result) m :
  orelse a b = Some m <-> a = Some m \/ (a = None /\ b = Some m).
Proof.
  destruct a; simpl; split; intros H.
  - now left.
  - destruct H as [H | [H _]]; [exact H | discriminate].
  - now right.
  - destruct H as [H | [_ H]]; [discriminate | exact H].
Qed.

Section Rounds.

Variable body : pystr -> caps -> kont -> result.
Hypothesis body_ext : forall s cs k1 k2,
  (forall s' cs', k1 s' cs' = k2 s' cs') -> body s cs k1 = body s cs k2.
Hypothesis body_fail : forall s cs, body s cs (fun _ _ => None) = None.

Lemma progress_ext s k1 k2 :
  (forall s' cs', length s' < length s -> k1 s' cs' = k2 s' cs') ->
  forall s' cs', progress s k1 s' cs' = progress s k2 s' cs'.
Proof.
  intros H s' cs'. unfold progress.
  destruct (length s' <? length s) eqn:E; [|reflexivity].
  apply H. now apply Nat.ltb_lt.
Qed.

Lemma body_stuck cs k : body [] cs (progress [] k) = None.
Proof.
  rewrite (body_ext [] cs (progress [] k) (fun _ _ => None)).
  - apply body_fail.
  - reflexivity.
Qed.

Lemma greedy_fuel k n : forall m s cs,
  length s <= n -> length s <= m ->
  greedy body k n s cs = greedy body k m s cs.
Proof.
  induction n as [|n IH]; intros m s cs Hn Hm.
  - destruct s; [|simpl in Hn; lia].
    destruct m; [reflexivity|]. simpl. now rewrite body_stuck.
  - destruct m as [|m].
    + destruct s; [|simpl in Hm; lia]. simpl. now rewrite body_stuck.
    + simpl. f_equal. apply body_ext. apply progress_ext.
      intros s' cs' Hlt. apply IH; lia.
Qed.

Lemma lazy_fuel k n : forall m s cs,
  length s <= n -> length s <= m ->
  lazy body k n s cs = lazy body k m s cs.
Proof.
  induction n as [|n IH]; intros m s cs Hn Hm.
  - destruct s; [|simpl in Hn; lia].
    destruct m; [reflexivity|]. simpl. rewrite body_stuck.
    now destruct (k [] cs).
  - destruct m as [|m].
    + destruct s; [|simpl in Hm; lia]. simpl. rewrite body_stuck.
      now destruct (k [] cs).
    + simpl. f_equal. apply body_ext. apply progress_ext.
      intros s' cs' Hlt. apply IH; lia.
Qed.

Lemma greedy_ext k1 k2 n : forall s cs,
  (forall s' cs', k1 s' cs' = k2 s' cs') ->
  greedy body k1 n s cs = greedy body k2 n s cs.
Proof.
  induction n as [|n IH]; intros s cs H; simpl.
  - apply H.
  - rewrite H. f_equal. apply body_ext. apply progress_ext.
    intros; now apply IH.
Qed.

Lemma lazy_ext k1 k2 n : forall s cs,
  (forall s' cs', k1 s' cs' = k2 s' cs') ->
  lazy body k1 n s cs = lazy body k2 n s cs.
Proof.
  induction n as [|n IH]; intros s cs H; simpl.
  - apply H.
  - rewrite H. f_equal. apply body_ext. apply progress_ext.
    intros; now apply IH.
Qed.

Lemma greedy_fail n : forall s cs, greedy body (fun _ _ => None) n s cs = None.
Proof.
  induction n as [|n IH]; intros s cs; simpl; [reflexivity|].
  rewrite (body_ext s cs _ (fun _ _ => None)).
  - now rewrite body_fail.
  - intros s' cs'. unfold progress. rewrite IH. now destruct (_ <? _).
Qed.

Lemma lazy_fail n : forall s cs, lazy body (fun _ _ => None) n s cs = None.
Proof.
  induction n as [|n IH]; intros s cs; simpl; [reflexivity|].
  rewrite (body_ext s cs _ (fun _ _ => None)).
  - now rewrite body_fail.
  - intros s' cs'. unfold progress. rewrite IH. now destruct (_ <? _).
Qed.

End Rounds.

Lemma run_ext_fail (r : regex) :
  (forall s cs k1 k2,
     (forall s' cs', k1 s' cs' = k2 s' cs') -> run r s cs k1 = run r s cs k2)
  /\ (forall s cs, run r s cs (fun _ _ => None) = None).
Proof.
  induction r as [| p | r1 [E1 F1] r2 [E2 F2] | r [E F] | r [E F] | r [E F]
                 | n r [E F]]; split; simpl.
  - intros s cs k1 k2 H. apply H.
  - reflexivity.
  - intros [|c s] cs k1 k2 H; [reflexivity|].
    destruct (p c); [apply H|reflexivity].
  - intros [|c s] cs; [reflexivity|]. now destruct (p c).
  - intros s cs k1 k2 H. apply E1. intros. now apply E2.
  - intros s cs. rewrite (E1 s cs _ (fun _ _ => None)); [apply F1|].
    intros. apply F2.
  - intros s cs k1 k2 H. rewrite H. f_equal. now apply E.
  - intros s cs. now rewrite F.
  - intros s cs k1 k2 H. now apply greedy_ext.
  - intros s cs. now apply greedy_fail.
  - intros s cs k1 k2 H. now apply lazy_ext.
  - intros s cs. now apply lazy_fail.
  - intros s cs k1 k2 H. apply E. intros. apply H.
  - intros s cs. apply (F s cs).
Qed.

Lemma run_ext (r : regex) s cs k1 k2 :
  (forall s' cs', k1 s' cs' = k2 s' cs') -> run r s cs k1 = run r s cs k2.
Proof. apply run_ext_fail. Qed.

Lemma run_fail (r : regex) s cs : run r s cs (fun _ _ => None) = None.
Proof. apply run_ext_fail. Qed.

(** The rounds of a repetition, one at a time. *)
Lemma run_Star r s cs k :
  run (Star r) s cs k =
  orelse (run r s cs (progress s (fun s' cs' => run (Star r) s' cs' k)))
         (k s cs).
Proof.
  simpl. destruct s as [|c s]; simpl.
  - rewrite body_stuck; auto using run_ext, run_fail.
  - f_equal. apply run_ext. apply progress_ext. intros s' cs' Hlt.
    simpl in Hlt. apply greedy_fuel; auto using run_ext, run_fail; lia.
Qed.

Lemma run_LazyStar r s cs k :
  run (LazyStar r) s cs k =
  orelse (k s cs)
         (run r s cs (progress s (fun s' cs' => run (LazyStar r) s' cs' k))).
Proof.
  simpl. destruct s as [|c s]; simpl.
  - rewrite body_stuck; auto using run_ext, run_fail. now destruct (k [] cs).
  - f_equal. apply run_ext. apply progress_ext. intros s' cs' Hlt.
    simpl in Hlt. apply lazy_fuel; auto using run_ext, run_fail; lia.
Qed.

(** What the matcher finds is in the language. *)
Lemma greedy_sound r
  (IH : forall s cs k res, run r s cs k = Some res ->
        exists m s' cs', s = m ++ s' /\ lang r m /\ k s' cs' = Some res)
  k res n : forall s cs,
  greedy (run r) k n s cs = Some res ->
  exists m s' cs', s = m ++ s' /\ lang (Star r) m /\ k s' cs' = Some res.
Proof.
  induction n as [|n IHn]; intros s cs H; simpl in H.
  - exists [], s, cs. repeat split; [constructor | exact H].
  - apply orelse_some in H. destruct H as [H | [_ H]].
    + apply IH in H. destruct H as (a & s1 & cs1 & -> & La & H).
      unfold progress in H. destruct (_ <? _); [|discriminate].
      apply IHn in H. destruct H as (b & s' & cs' & -> & Lb & H).
      exists (a ++ b), s', cs'. rewrite <- app_assoc.
      repeat split; [now constructor | exact H].
    + exists [], s, cs. repeat split; [constructor | exact H].
Qed.

Lemma lazy_sound r
  (IH : forall s cs k res, run r s cs k = Some res ->
        exists m s' cs', s = m ++ s' /\ lang r m /\ k s' cs' = Some res)
  k res n : forall s cs,
  lazy (run r) k n s cs = Some res ->
  exists m s' cs', s = m ++ s' /\ lang (LazyStar r) m /\ k s' cs' = Some res.
Proof.
  induction n as [|n IHn]; intros s cs H; simpl in H.
  - exists [], s, cs. repeat split; [constructor | exact H].
  - apply orelse_some in H. destruct H as [H | [_ H]].
    + exists [], s, cs. repeat split; [constructor | exact H].
    + apply IH in H. destruct H as (a & s1 & cs1 & -> & La & H).
      unfold progress in H. destruct (_ <? _); [|discriminate].
      apply IHn in H. destruct H as (b & s' & cs' & -> & Lb & H).
      exists (a ++ b), s', cs'. rewrite <- app_assoc.
      repeat split; [now constructor | exact H].
Qed.

Lemma run_sound r : forall s cs k res,
  run r s cs k = Some res ->
  exists m s' cs', s = m ++ s' /\ lang r m /\ k s' cs' = Some res.
Proof.
  induction r as [| p | r1 IH1 r2 IH2 | r IH | r IH | r IH | n r IH];
    intros s cs k res H; simpl in H.
  - exists [], s, cs. repeat split; [constructor | exact H].
  - destruct s as [|c s]; [discriminate|].
    destruct (p c) eqn:E; [|discriminate].
    exists [c], s, cs. repeat split; [now constructor | exact H].
  - apply IH1 in H. destruct H as (a & s1 & cs1 & -> & La & H).
    apply IH2 in H. destruct H as (b & s' & cs' & -> & Lb & H).
    exists (a ++ b), s', cs'. rewrite <- app_assoc.
    repeat split; [now constructor | exact H].
  - apply orelse_some in H. destruct H as [H | [_ H]].
    + apply IH in H. destruct H as (a & s' & cs' & -> & La & H).
      exists a, s', cs'. repeat split; [now constructor | exact H].
    + exists [], s, cs. repeat split; [apply L_Opt_skip | exact H].
  - eapply greedy_sound; eauto.
  - eapply lazy_sound; eauto.
  - apply IH in H. destruct H as (a & s' & cs' & -> & La & H).
    eexists a, s', _. repeat split; [now constructor | exact H].
Qed.

Lemma lang_Eps_inv m : lang Eps m -> m = [].
Proof. now inversion 1. Qed.

Lemma lang_Chr_inv p m : lang (Chr p) m -> exists c, m = [c] /\ p c = true.
Proof. inversion 1; subst; eauto. Qed.

Lemma lang_Seq_inv r1 r2 m :
  lang (Seq r1 r2) m -> exists a b, m = a ++ b /\ lang r1 a /\ lang r2 b.
Proof. inversion 1; subst; eauto. Qed.

Lemma lang_Opt_inv r m : lang (Opt r) m -> lang r m \/ m = [].
Proof. inversion 1; subst; auto. Qed.

Lemma lang_Group_inv n r m : lang (Group n r) m -> lang r m.
Proof. now inversion 1. Qed.

(** Whatever is in the language, the matcher tries. *)
Lemma run_complete r : forall s cs k,
  run r s cs k = None ->
  forall m s', s = m ++ s' -> lang r m -> exists cs', k s' cs' = None.
Proof.
  induction r as [| p | r1 IH1 r2 IH2 | r IH | r IH | r IH | n r IH];
    intros s cs k H m s' -> L.
  - apply lang_Eps_inv in L. subst. now exists cs.
  - apply lang_Chr_inv in L. destruct L as (c & -> & Hc).
    simpl in H. rewrite Hc in H. now exists cs.
  - apply lang_Seq_inv in L. destruct L as (a & b & -> & La & Lb).
    simpl in H. rewrite <- app_assoc in H.
    destruct (IH1 _ _ _ H a (b ++ s') eq_refl La) as [cs1 H1].
    exact (IH2 _ _ _ H1 b s' eq_refl Lb).
  - simpl in H. apply orelse_none in H. destruct H as [H1 H2].
    apply lang_Opt_inv in L. destruct L as [L | ->].
    + exact (IH _ _ _ H1 m s' eq_refl L).
    + now exists cs.
  - revert cs H. remember (Star r) as R eqn:ER.
    induction L as [| | | | | r0 | r0 a b La _ Lb IHb | | |]; try discriminate;
      injection ER as ->; intros cs H; rewrite run_Star in H;
      apply orelse_none in H; destruct H as [H1 H2].
    + now exists cs.
    + destruct a as [|c a].
      * apply (IHb eq_refl cs). rewrite run_Star. apply orelse_none. now split.
      * rewrite <- app_assoc in H1.
        destruct (IH _ _ _ H1 (c :: a) (b ++ s') eq_refl La) as [cs1 H].
        unfold progress in H.
        replace (length (b ++ s') <? length ((c :: a) ++ b ++ s')) with true in H
          by (symmetry; apply Nat.ltb_lt; simpl; rewrite !length_app; lia).
        exact (IHb eq_refl cs1 H).
  - revert cs H. remember (LazyStar r) as R eqn:ER.
    induction L as [| | | | | | | r0 | r0 a b La _ Lb IHb |]; try discriminate;
      injection ER as ->; intros cs H; rewrite run_LazyStar in H;
      apply orelse_none in H; destruct H as [H1 H2].
    + now exists cs.
    + destruct a as [|c a].
      * apply (IHb eq_refl cs). rewrite run_LazyStar. apply orelse_none.
        now split.
      * rewrite <- app_assoc in H2.
        destruct (IH _ _ _ H2 (c :: a) (b ++ s') eq_refl La) as [cs1 H].
        unfold progress in H.
        replace (length (b ++ s') <? length ((c :: a) ++ b ++ s')) with true in H
          by (symmetry; apply Nat.ltb_lt; simpl; rewrite !length_app; lia).
        exact (IHb eq_refl cs1 H).
  - apply lang_Group_inv in L. simpl in H.
    destruct (IH _ _ _ H m s' eq_refl L) as [cs1 H1]. eauto.
Qed.

Lemma re_match_sound r s cs rest :
  re_match r s = Some (cs, rest) -> exists m, s = m ++ rest /\ lang r m.
Proof.
  intros H. apply run_sound in H.
  destruct H as (m & s' & cs' & -> & L & H). injection H as _ <-. eauto.
Qed.

Lemma re_match_complete r s :
  re_match r s = None -> forall m s', s = m ++ s' -> ~ lang r m.
Proof.
  intros H m s' E L.
  destruct (run_complete _ _ _ _ H m s' E L) as [cs' H']. discriminate.
Qed.

(** ** The scan *)

Lemma pieces_fuel r : forall f1 f2 s,
  length s <= f1 -> length s <= f2 -> pieces r f1 s = pieces r f2 s.
Proof.
  induction f1 as [|f1 IH]; intros f2 s H1 H2.
  - destruct s; [|simpl in H1; lia]. now destruct f2.
  - destruct f2 as [|f2].
    + destruct s; [reflexivity | simpl in H2; lia].
    + destruct s as [|c s]; [reflexivity|].
      cbn [pieces]. simpl in H1, H2.
      destruct (re_match r (c :: s)) as [[cs rest]|].
      * destruct (length rest <? length (c :: s)) eqn:E.
        -- apply Nat.ltb_lt in E. simpl in E. f_equal. apply IH; lia.
        -- f_equal. apply IH; lia.
      * f_equal. apply IH; lia.
Qed.

Lemma scan_nil r : scan r [] = [].
Proof. reflexivity. Qed.

Lemma scan_cons r c s :
  scan r (c :: s) =
  match re_match r (c :: s) with
  | Some (cs, rest) =>
      if length rest <? length (c :: s)
      then Match (firstn (length (c :: s) - length rest) (c :: s)) cs
             :: scan r rest
      else Text c :: scan r s
  | None => Text c :: scan r s
  end.
Proof.
  unfold scan. cbn [length pieces].
  destruct (re_match r (c :: s)) as [[cs rest]|]; [|reflexivity].
  destruct (length rest <? S (length s)) eqn:E; [|reflexivity].
  apply Nat.ltb_lt in E. f_equal. apply pieces_fuel; lia.
Qed.

(** A step of the scan where no match starts. *)
Lemma scan_miss r c s :
  re_match r (c :: s) = None -> scan r (c :: s) = Text c :: scan r s.
Proof. intros H. now rewrite scan_cons, H. Qed.

(** A step of the scan where the match [m], not empty, starts. *)
Lemma scan_hit r m rest cs :
  m <> [] -> re_match r (m ++ rest) = Some (cs, rest) ->
  scan r (m ++ rest) = Match m cs :: scan r rest.
Proof.
  intros Hm H. destruct m as [|c m]; [congruence|].
  cbn [app] in *. rewrite scan_cons, H. cbn [length].
  rewrite length_app.
  replace (length rest <? S (length m + length rest)) with true
    by (symmetry; apply Nat.ltb_lt; lia).
  replace (S (length m + length rest) - length rest) with (length (c :: m))
    by (cbn [length]; lia).
  change (c :: m ++ rest) with ((c :: m) ++ rest).
  now rewrite firstn_app, firstn_all, Nat.sub_diag, app_nil_r.
Qed.

(** Induction along the scan: every step is a miss or a hit. *)
Lemma scan_ind r (P : pystr -> list piece -> Prop) :
  P [] [] ->
  (forall c s, re_match r (c :: s) = None ->
     P s (scan r s) -> P (c :: s) (Text c :: scan r s)) ->
  (forall c s cs, re_match r (c :: s) = Some (cs, c :: s) ->
     P s (scan r s) -> P (c :: s) (Text c :: scan r s)) ->
  (forall m rest cs, m <> [] -> lang r m ->
     re_match r (m ++ rest) = Some (cs, rest) ->
     P rest (scan r rest) -> P (m ++ rest) (Match m cs :: scan r rest)) ->
  forall s, P s (scan r s).
Proof.
  intros Hnil Hmiss Hempty Hhit s.
  remember (length s) as n eqn:En. revert s En.
  induction n as [n IH] using lt_wf_ind. intros s ->.
  destruct s as [|c s]; [exact Hnil|].
  destruct (re_match r (c :: s)) as [[cs rest]|] eqn:E.
  - destruct (re_match_sound _ _ _ _ E) as (m & Es & L).
    destruct m as [|x m].
    + simpl in Es. subst rest. rewrite scan_cons, E, Nat.ltb_irrefl.
      apply (Hempty c s cs E). apply (IH (length s)); simpl; auto.
    + rewrite Es in *. rewrite (scan_hit r (x :: m) rest cs); [|discriminate|exact E].
      apply Hhit; [discriminate | exact L | exact E |].
      apply (IH (length rest)); [|reflexivity].
      simpl. rewrite length_app. simpl. lia.
  - rewrite scan_miss by exact E. apply Hmiss; [exact E|].
    apply (IH (length s)); simpl; auto.
Qed.

Lemma scan_original r s : original (scan r s) = s.
Proof.
  apply (scan_ind r (fun s ps => original ps = s)); simpl; intros; congruence.
Qed.

(** ** Substitution *)

Lemma expand_plain repl whole cs : expand (map TLit repl) whole cs = repl.
Proof. induction repl as [|c repl IH]; simpl; congruence. Qed.

(** Without a match the text is handed back. *)
Lemma sub_plain_no_match r repl s :
  has_match r s = false -> sub_plain r repl s = s.
Proof.
  unfold has_match, sub_plain.
  apply (scan_ind r (fun s ps =>
    existsb is_match ps = false -> substitute (map TLit repl) ps = s)); simpl.
  - reflexivity.
  - intros c s0 _ IH H. now rewrite IH.
  - intros c s0 cs _ IH H. now rewrite IH.
  - discriminate.
Qed.

(** Deleting the matches shortens the text wherever there is a match. *)
Lemma sub_plain_delete_length r s :
  length (sub_plain r [] s) <= length s /\
  (has_match r s = true -> length (sub_plain r [] s) < length s).
Proof.
  unfold has_match, sub_plain.
  apply (scan_ind r (fun s ps =>
    length (substitute [] ps) <= length s /\
    (existsb is_match ps = true -> length (substitute [] ps) < length s)));
    simpl.
  - split; [lia | discriminate].
  - intros c s0 _ [IH1 IH2]. split; [lia|]. intros H. specialize (IH2 H). lia.
  - intros c s0 cs _ [IH1 IH2]. split; [lia|]. intros H. specialize (IH2 H). lia.
  - intros m rest cs Hm _ _ [IH1 _]. rewrite length_app.
    destruct m; [congruence|]. simpl. split; [lia|]. intros _. lia.
Qed.

(** ** Templates *)

(** A replacement without a backslash is its own template. *)
Lemma parse_template_plain groups repl : forall fuel,
  forallb (fun c => negb (c =? 92)%N) repl = true ->
  length repl <= fuel ->
  parse_template groups fuel repl = Some (map TLit repl).
Proof.
  induction repl as [|c repl IH]; intros fuel H F.
  - now destruct fuel.
  - destruct fuel as [|fuel]; [simpl in F; lia|].
    simpl in H. apply andb_prop in H. destruct H as [Hc H].
    cbn [parse_template]. rewrite Hc. rewrite IH; [reflexivity | exact H|].
    simpl in F. lia.
Qed.

Lemma sub_plain_spec groups r repl s :
  forallb (fun c => negb (c =? 92)%N) repl = true ->
  sub groups r repl s = Some (sub_plain r repl s).
Proof.
  intros H. unfold sub. now rewrite parse_template_plain.
Qed.

End ReFacts.

(* ===================================================================== *)
(** * The resolvers *)
(* ===================================================================== *)

Module ResolverFacts.

Local Open Scope N_scope.

Lemma bindM_lift {A B} (w : W A) (f : A -> M B) :
  bindM (lift w) f =
  match f (fst w) with
  | Some (b, t) => Some (b, snd w ++ t)
  | None => None
  end.
Proof. now destruct w. Qed.

Lemma bindM_some {A B} (m : M A) (f : A -> M B) b t :
  bindM m f = Some (b, t) <->
  exists a t1 t2, m = Some (a, t1) /\ f a = Some (b, t2) /\ t = t1 ++ t2.
Proof.
  unfold bindM. split.
  - destruct m as [[a t1]|]; [|discriminate].
    destruct (f a) as [[b' t2]|] eqn:E; [|discriminate].
    intros H. injection H as <- <-. eauto 8.
  - intros (a & t1 & t2 & -> & -> & ->). reflexivity.
Qed.

Lemma doc_bindM {A B} (m : M A) (f : A -> M B) :
  doc (bindM m f) =
  match doc m with
  | Some a => doc (f a)
  | None => None
  end.
Proof.
  unfold doc, bindM. destruct m as [[a t1]|]; simpl; [|reflexivity].
  now destruct (f a) as [[b t2]|].
Qed.

Lemma doc_lift {A} (w : W A) : doc (lift w) = Some (fst w).
Proof. reflexivity. Qed.

Lemma fst_bindW {A B} (m : W A) (f : A -> W B) :
  fst (bindW m f) = fst (f (fst m)).
Proof. destruct m as [a t1]. simpl. now destruct (f a). Qed.

Lemma snd_bindW {A B} (m : W A) (f : A -> W B) :
  snd (bindW m f) = snd m ++ snd (f (fst m)).
Proof. destruct m as [a t1]. simpl. now destruct (f a). Qed.

Lemma requested_app t1 t2 : requested (t1 ++ t2) = requested t1 ++ requested t2.
Proof.
  induction t1 as [|e t1 IH]; [reflexivity|].
  destruct e; simpl; now rewrite IH.
Qed.

Section Facts.

Variable g : Globals.
Variable requests_get : pystr -> option pystr -> fetch.
Variable re_error : pystr -> pystr.

Local Abbreviation _log := (_log g).
Local Abbreviation import_body := (import_body g requests_get re_error).
Local Abbreviation import_loop := (import_loop g requests_get re_error).
Local Abbreviation asset_body := (asset_body g requests_get).
Local Abbreviation test_asset_resolver := (test_asset_resolver g requests_get).
Local Abbreviation test_asset_extractor := (test_asset_extractor g).
Local Abbreviation test_resolve_css := (test_resolve_css g requests_get re_error).
Local Abbreviation test_import_resolver := (test_import_resolver g requests_get re_error).

(** Logging makes no request. *)
Lemma requested_log content prefix : requested (snd (_log content prefix)) = [].
Proof.
  unfold Resolver._log, when, tell, retW.
  destruct (mem (log_method g) [2; 3]), (mem (log_method g) [1; 3]); reflexivity.
Qed.

Lemma requested_when_log b content prefix :
  requested (snd (when b (_log content prefix))) = [].
Proof. destruct b; [apply requested_log | reflexivity]. Qed.

(** A deeper recursion budget changes no result. *)
Lemma import_body_mono f1 f2 embedded url x :
  below f1 f2 ->
  import_body f1 embedded url = Some x -> import_body f2 embedded url = Some x.
Proof.
  intros Hb. unfold Resolver.import_body. rewrite ?bindM_lift.
  destruct (startswith (lit "/") url && mem (log_level g) [1; 2]); [auto|].
  destruct (requests_get url (headers g)) as [response|msg]; [|auto].
  destruct (status_code response =? 200); [|auto].
  rewrite ?bindM_lift.
  destruct (f1 (text response)) as [[r t]|] eqn:E1.
  - now rewrite (Hb _ _ E1).
  - discriminate.
Qed.

Lemma import_loop_mono f1 f2 urls : forall embedded x,
  below f1 f2 ->
  import_loop f1 urls embedded = Some x -> import_loop f2 urls embedded = Some x.
Proof.
  induction urls as [|url urls IH]; intros embedded [r t] Hb; simpl; [auto|].
  intros H. apply bindM_some in H. destruct H as (e & t1 & t2 & H1 & H2 & ->).
  apply bindM_some. exists e, t1, t2. repeat split.
  - eapply import_body_mono; eauto.
  - eapply IH; eauto.
Qed.

Lemma test_resolve_css_S fuel : below (test_resolve_css fuel) (test_resolve_css (S fuel)).
Proof.
  induction fuel as [|fuel IH]; intros css x; [discriminate|].
  intros H. change (test_resolve_css (S fuel) css) with
    (bindM (import_loop (test_resolve_css fuel) (test_import_extractor css) css)
       (fun embedded => bindM (lift (test_asset_extractor embedded))
          (fun assets => lift (test_asset_resolver assets embedded)))) in H.
  change (test_resolve_css (S (S fuel)) css) with
    (bindM (import_loop (test_resolve_css (S fuel)) (test_import_extractor css) css)
       (fun embedded => bindM (lift (test_asset_extractor embedded))
          (fun assets => lift (test_asset_resolver assets embedded)))).
  destruct x as [r t]. apply bindM_some in H.
  destruct H as (e & t1 & t2 & H1 & H2 & ->).
  apply bindM_some. exists e, t1, t2. repeat split; [|exact H2].
  eapply import_loop_mono; eauto.
Qed.

Lemma test_resolve_css_mono fuel fuel' :
  (fuel <= fuel')%nat -> below (test_resolve_css fuel) (test_resolve_css fuel').
Proof.
  induction 1 as [|fuel' _ IH]; intros css x H; [exact H|].
  apply test_resolve_css_S. now apply IH.
Qed.

Lemma resolve_css_returns_unique css r1 r2 :
  resolve_css_returns g requests_get re_error css r1 ->
  resolve_css_returns g requests_get re_error css r2 -> r1 = r2.
Proof.
  intros [f1 H1] [f2 H2].
  apply (test_resolve_css_mono f1 (Nat.max f1 f2)) in H1; [|apply Nat.le_max_l].
  apply (test_resolve_css_mono f2 (Nat.max f1 f2)) in H2; [|apply Nat.le_max_r].
  congruence.
Qed.

(** A failed fetch leaves the document as it is. *)
Lemma import_body_failed resolve embedded url :
  failed (requests_get url (headers g)) = true ->
  doc (import_body resolve embedded url) = Some embedded.
Proof.
  intros F. unfold Resolver.import_body.
  rewrite ?doc_bindM, ?doc_lift.
  destruct (startswith (lit "/") url && mem (log_level g) [1; 2]).
  - now rewrite ?doc_bindM, ?doc_lift.
  - rewrite ?doc_bindM, ?doc_lift.
    destruct (requests_get url (headers g)) as [response|msg]; simpl in F.
    + destruct (status_code response =? 200); [discriminate|reflexivity].
    + now rewrite ?doc_bindM, ?doc_lift.
Qed.

Lemma asset_body_failed embedded url :
  failed (requests_get url (headers g)) = true ->
  fst (asset_body embedded url) = embedded.
Proof.
  intros F. unfold Resolver.asset_body.
  destruct (contains (lit "data:") url); [now rewrite ?fst_bindW|].
  destruct (startswith (lit "/") url && mem (log_level g) [1; 2]);
    [now rewrite ?fst_bindW|].
  rewrite ?fst_bindW.
  destruct (requests_get url (headers g)) as [response|msg]; simpl in F.
  + destruct (status_code response =? 200); [discriminate|].
    now rewrite ?fst_bindW.
  + now rewrite ?fst_bindW.
Qed.

Lemma import_loop_skip resolve url l2 l1 : forall css,
  failed (requests_get url (headers g)) = true ->
  doc (import_loop resolve (l1 ++ url :: l2) css)
  = doc (import_loop resolve (l1 ++ l2) css).
Proof.
  induction l1 as [|u l1 IH]; intros css F; simpl; rewrite !doc_bindM.
  - now rewrite import_body_failed.
  - destruct (doc (import_body resolve css u)); [now apply IH|reflexivity].
Qed.

Lemma asset_loop_skip url l2 l1 : forall css,
  failed (requests_get url (headers g)) = true ->
  fst (test_asset_resolver (l1 ++ url :: l2) css)
  = fst (test_asset_resolver (l1 ++ l2) css).
Proof.
  induction l1 as [|u l1 IH]; intros css F; simpl; rewrite !fst_bindW.
  - now rewrite asset_body_failed.
  - now apply IH.
Qed.

(** What one round of the asset loop asks of the network. *)
Lemma asset_body_requested embedded url :
  requested (snd (asset_body embedded url)) =
  if contains (lit "data:") url then []
  else if startswith (lit "/") url && mem (log_level g) [1; 2] then []
  else [url].
Proof.
  unfold Resolver.asset_body.
  destruct (contains (lit "data:") url).
  { rewrite snd_bindW, requested_app, requested_when_log. reflexivity. }
  destruct (startswith (lit "/") url && mem (log_level g) [1; 2]).
  { rewrite snd_bindW, requested_app, requested_log. reflexivity. }
  rewrite !snd_bindW, !requested_app, requested_when_log. simpl.
  destruct (requests_get url (headers g)) as [response|msg].
  - destruct (status_code response =? 200);
      rewrite snd_bindW, requested_app, requested_when_log; reflexivity.
  - unfold on_exception.
    rewrite snd_bindW, requested_app, requested_when_log. reflexivity.
Qed.

Lemma asset_body_data embedded url :
  contains (lit "data:") url = true -> fst (asset_body embedded url) = embedded.
Proof.
  intros D. unfold Resolver.asset_body. rewrite D. now rewrite fst_bindW.
Qed.

Lemma asset_body_200 embedded url response :
  contains (lit "data:") url = false ->
  startswith (lit "/") url && mem (log_level g) [1; 2] = false ->
  requests_get url (headers g) = Got response ->
  status_code response = 200 ->
  fst (asset_body embedded url) =
  replace url
    (lit "data:" ++ match content_type response with
                     | Some c => c
                     | None => f_none
                     end ++ lit ";base64," ++ b64encode (content response))
    embedded.
Proof.
  intros D S G C. unfold Resolver.asset_body.
  rewrite D, S, G, C, N.eqb_refl. now rewrite !fst_bindW.
Qed.

(** The loop over a list in two parts is the loop over the second part, on
    the document the first part leaves. *)
Lemma asset_resolver_app l1 l2 : forall css,
  fst (test_asset_resolver (l1 ++ l2) css)
  = fst (test_asset_resolver l2 (fst (test_asset_resolver l1 css))).
Proof.
  induction l1 as [|u l1 IH]; intros css; [reflexivity|].
  cbn [app test_asset_resolver]. rewrite !fst_bindW. apply IH.
Qed.

Lemma asset_resolver_one url css :
  test_asset_resolver [url] css =
  (fst (asset_body css url), snd (asset_body css url) ++ []).
Proof. simpl. unfold bindW, retW. now destruct (asset_body css url). Qed.

(** A fetched stylesheet that resolves to [r] is put in by [re.sub], which
    may refuse [r] as a template. *)
Lemma import_body_200 resolve embedded url response r t :
  startswith (lit "/") url && mem (log_level g) [1; 2] = false ->
  requests_get url (headers g) = Got response ->
  status_code response = 200 ->
  resolve (text response) = Some (r, t) ->
  doc (import_body resolve embedded url) =
  match sub 0 (import_stmt_re url) r embedded with
  | Some embedded' => Some embedded'
  | None => Some embedded
  end.
Proof.
  intros S G C R. unfold Resolver.import_body.
  rewrite doc_bindM, doc_lift, S, !doc_bindM, !doc_lift, G, C, N.eqb_refl.
  rewrite !doc_bindM, !doc_lift. unfold doc at 1. rewrite R. cbn [option_map fst].
  destruct (sub 0 (import_stmt_re url) r embedded);
    now rewrite doc_bindM, doc_lift.
Qed.

(** A root-relative URL is passed over when the log level is 1 or 2. *)
Lemma import_body_root_relative resolve embedded url :
  startswith (lit "/") url = true -> mem (log_level g) [1; 2] = true ->
  exists t, import_body resolve embedded url = Some (embedded, t)
            /\ requested t = [].
Proof.
  intros S L. unfold Resolver.import_body. rewrite S, L. cbn [andb].
  rewrite !bindM_lift. unfold retM. eexists. split; [reflexivity|].
  rewrite !requested_app, requested_when_log, requested_log. reflexivity.
Qed.

Lemma asset_body_root_relative embedded url :
  startswith (lit "/") url = true -> mem (log_level g) [1; 2] = true ->
  fst (asset_body embedded url) = embedded
  /\ requested (snd (asset_body embedded url)) = [].
Proof.
  intros S L. split.
  - unfold Resolver.asset_body. rewrite S, L. cbn [andb].
    destruct (contains (lit "data:") url); now rewrite fst_bindW.
  - rewrite asset_body_requested, S, L.
    now destruct (contains (lit "data:") url).
Qed.

(** With an import list or a reference list that is empty nothing happens
    to the document. *)
Lemma resolve_css_no_refs fuel css :
  test_import_extractor css = [] ->
  fst (test_asset_extractor css) = [] ->
  exists t, test_resolve_css (S fuel) css = Some (css, t) /\ requested t = [].
Proof.
  intros I A. simpl. rewrite I. simpl.
  destruct (test_asset_extractor css) as [assets t] eqn:E. simpl in A. subst.
  simpl. eexists. split; [reflexivity|].
  rewrite app_nil_r. replace t with (snd (test_asset_extractor css)) by now rewrite E.
  unfold Resolver.test_asset_extractor.
  rewrite snd_bindW, requested_app, requested_when_log. reflexivity.
Qed.

End Facts.

End ResolverFacts.

(* ===================================================================== *)
(** * The program's patterns *)
(* ===================================================================== *)

Module PatternFacts.

Import ReFacts PyStrFacts.

(** ** Steps of the matcher *)

Lemma run_Lit_app l s cs k : run (Lit l) (l ++ s) cs k = k s cs.
Proof.
  induction l as [|c l IH]; [reflexivity|].
  simpl. now rewrite char_eqb_refl.
Qed.

Lemma run_Lit_miss l : forall s cs k,
  startswith l s = false -> run (Lit l) s cs k = None.
Proof.
  induction l as [|c l IH]; intros s cs k H; [discriminate|].
  destruct s as [|x s]; [reflexivity|]. simpl in *.
  destruct (char_eqb c x); [now apply IH | reflexivity].
Qed.

Lemma lang_Lit l m : lang (Lit l) m <-> m = l.
Proof.
  revert m. induction l as [|c l IH]; intros m; simpl; split.
  - apply lang_Eps_inv.
  - intros ->. constructor.
  - intros H. apply lang_Seq_inv in H. destruct H as (a & b & -> & Ha & Hb).
    apply lang_Chr_inv in Ha. destruct Ha as (x & -> & Hx).
    apply char_eqb_eq in Hx. apply IH in Hb. now subst.
  - intros ->. apply (L_Seq (Ch c) (Lit l) [c] l).
    + constructor. apply char_eqb_refl.
    + now apply IH.
Qed.

Lemma run_Opt_take r s cs k x :
  run r s cs k = Some x -> run (Opt r) s cs k = Some x.
Proof. intros H. simpl. now rewrite H. Qed.

Lemma run_Opt_skip r s cs k :
  run r s cs k = None -> run (Opt r) s cs k = k s cs.
Proof. intros H. simpl. now rewrite H. Qed.

(** A greedy run of a character class stops where the class ends, if the
    rest of the pattern can go on from there. *)
Lemma run_Seq r1 r2 s cs k :
  run (Seq r1 r2) s cs k = run r1 s cs (fun s' cs' => run r2 s' cs' k).
Proof. reflexivity. Qed.

Lemma run_Chr_cons p c s cs k :
  run (Chr p) (c :: s) cs k = if p c then k s cs else None.
Proof. reflexivity. Qed.

Lemma run_Star_Chr_stop p s cs k :
  stops p s -> run (Star (Chr p)) s cs k = k s cs.
Proof.
  intros H. rewrite run_Star. destruct s as [|c s]; [reflexivity|].
  simpl in H. simpl. now rewrite H.
Qed.

Lemma run_Star_Chr_all p ws tl cs k x :
  forallb p ws = true -> stops p tl -> k tl cs = Some x ->
  run (Star (Chr p)) (ws ++ tl) cs k = Some x.
Proof.
  intros Hws Htl Hk. induction ws as [|c ws IH].
  - simpl app. now rewrite run_Star_Chr_stop.
  - simpl in Hws. apply andb_prop in Hws. destruct Hws as [Hc Hws].
    rewrite run_Star. cbn [app]. rewrite run_Chr_cons, Hc. unfold progress.
    replace (length (ws ++ tl) <? length (c :: ws ++ tl)) with true
      by (symmetry; apply Nat.ltb_lt; simpl; lia).
    now rewrite (IH Hws).
Qed.

Lemma lang_Star_Chr p m : lang (Star (Chr p)) m <-> forallb p m = true.
Proof.
  split.
  - remember (Star (Chr p)) as R eqn:ER. intros L.
    induction L as [| | | | | r0 | r0 a b La _ Lb IHb | | |]; try discriminate.
    + reflexivity.
    + injection ER as ->. apply lang_Chr_inv in La.
      destruct La as (c & -> & Hc). simpl. rewrite Hc. now apply IHb.
  - induction m as [|c m IH]; simpl; intros H.
    + constructor.
    + apply andb_prop in H. destruct H as [Hc H].
      apply (L_Star_round (Chr p) [c] m); [now constructor | now apply IH].
Qed.

Lemma lang_Plus_Chr p m :
  lang (Plus (Chr p)) m <-> m <> [] /\ forallb p m = true.
Proof.
  unfold Plus. split.
  - intros H. apply lang_Seq_inv in H. destruct H as (a & b & -> & La & Lb).
    apply lang_Chr_inv in La. destruct La as (c & -> & Hc).
    apply lang_Star_Chr in Lb. simpl. rewrite Hc, Lb. split; [discriminate|reflexivity].
  - intros [Hm H]. destruct m as [|c m]; [congruence|].
    simpl in H. apply andb_prop in H. destruct H as [Hc H].
    apply (L_Seq (Chr p) (Star (Chr p)) [c] m); [now constructor|].
    now apply lang_Star_Chr.
Qed.

(** A lazy run of a character class goes on for as long as the rest of the
    pattern refuses to take over. *)
Lemma run_Lazy_Chr p u tl cs k x :
  forallb p u = true ->
  (forall i, (i < length u)%nat -> k (skipn i u ++ tl) cs = None) ->
  k tl cs = Some x ->
  run (LazyStar (Chr p)) (u ++ tl) cs k = Some x.
Proof.
  intros Hu Hk Hx. induction u as [|c u IH].
  - rewrite run_LazyStar. simpl app. now rewrite Hx.
  - simpl in Hu. apply andb_prop in Hu. destruct Hu as [Hc Hu].
    rewrite run_LazyStar.
    pose proof (Hk 0%nat ltac:(simpl; lia)) as H0. cbn [skipn app] in H0.
    cbn [app]. rewrite H0. cbn [orelse].
    rewrite run_Chr_cons, Hc. unfold progress.
    replace (length (u ++ tl) <? length (c :: u ++ tl)) with true
      by (symmetry; apply Nat.ltb_lt; simpl; lia).
    apply IH; [exact Hu|]. intros i Hi. apply (Hk (S i)). simpl. lia.
Qed.

(** ** No pattern of the program matches the empty string *)

Lemma consuming_Chr p : consuming (Chr p).
Proof. intros m H. apply lang_Chr_inv in H. now destruct H as (c & -> & _). Qed.

Lemma consuming_Lit l : l <> [] -> consuming (Lit l).
Proof. intros Hl m H. apply lang_Lit in H. now subst. Qed.

Lemma consuming_Seq r1 r2 : consuming r1 -> consuming (Seq r1 r2).
Proof.
  intros C m H. apply lang_Seq_inv in H. destruct H as (a & b & -> & Ha & _).
  specialize (C a Ha). now destruct a.
Qed.

Lemma patterns_consuming url :
  consuming comment_re /\ consuming spaces_re /\ consuming import_re
  /\ consuming asset_re /\ consuming (import_stmt_re url).
Proof.
  repeat split; apply consuming_Seq;
    solve [apply consuming_Chr | now apply consuming_Lit].
Qed.

Lemma consuming_match r s cs rest :
  consuming r -> re_match r s = Some (cs, rest) -> length rest < length s.
Proof.
  intros C H. apply re_match_sound in H. destruct H as (m & -> & L).
  specialize (C m L). rewrite length_app. destruct m; [congruence|simpl; lia].
Qed.

(** ** [\s+] *)

Lemma lstrip_stops s : stops is_space (lstrip s).
Proof.
  induction s as [|c s IH]; simpl; [exact I|].
  destruct (is_space c) eqn:E; [exact IH | exact E].
Qed.

Lemma lstrip_split s :
  exists ws, s = ws ++ lstrip s /\ forallb is_space ws = true.
Proof.
  induction s as [|c s (ws & E & H)]; simpl.
  - now exists [].
  - destruct (is_space c) eqn:Ec.
    + exists (c :: ws). simpl. rewrite Ec, H. now rewrite <- E.
    + now exists [].
Qed.

Lemma spaces_re_match c s :
  re_match spaces_re (c :: s) =
  if is_space c then Some ([], lstrip s) else None.
Proof.
  unfold re_match, spaces_re, Plus, space. rewrite run_Seq, run_Chr_cons.
  destruct (is_space c); [|reflexivity].
  destruct (lstrip_split s) as (ws & E & H).
  rewrite E at 1. apply run_Star_Chr_all; auto using lstrip_stops.
Qed.

Lemma squeeze_lstrip s : squeeze true s = squeeze false (lstrip s).
Proof.
  induction s as [|c s IH]; simpl; [reflexivity|].
  destruct (is_space c) eqn:E; [exact IH|]. simpl. now rewrite E.
Qed.

(** The substitution of [\s+] by one space is the one-pass collapse. *)
Lemma collapse_spaces_squeeze s : collapse_spaces s = squeeze false s.
Proof.
  unfold collapse_spaces, sub_plain.
  remember (length s) as n eqn:En. revert s En.
  induction n as [n IH] using lt_wf_ind. intros s ->.
  destruct s as [|c s]; [reflexivity|].
  rewrite scan_cons, spaces_re_match. simpl squeeze.
  destruct (is_space c).
  - pose proof (lstrip_length s) as L.
    replace (length (lstrip s) <? length (c :: s)) with true
      by (symmetry; apply Nat.ltb_lt; simpl; lia).
    cbn [substitute]. rewrite expand_plain. simpl.
    f_equal. rewrite squeeze_lstrip.
    apply (IH (length (lstrip s))); [simpl; lia | reflexivity].
  - cbn [substitute]. f_equal. apply (IH (length s)); simpl; auto.
Qed.

Lemma squeeze_length b s : (length (squeeze b s) <= length s)%nat.
Proof.
  revert b. induction s as [|c s IH]; intros b; simpl; [lia|].
  pose proof (IH true). pose proof (IH false).
  destruct (is_space c); [destruct b|]; simpl; lia.
Qed.

Lemma tidy_squeeze s : forall b, tidy b (squeeze b s) = true.
Proof.
  induction s as [|c s IH]; intros b; simpl; [reflexivity|].
  destruct (is_space c) eqn:E.
  - destruct b; [apply IH|]. simpl. now rewrite IH.
  - simpl. rewrite E. apply IH.
Qed.

Lemma squeeze_tidy s : forall b, tidy b s = true -> squeeze b s = s.
Proof.
  induction s as [|c s IH]; intros b H; simpl in *; [reflexivity|].
  destruct (is_space c).
  - apply andb_prop in H. destruct H as [H Hs].
    apply andb_prop in H. destruct H as [Hc Hb].
    apply N.eqb_eq in Hc. subst c. destruct b; [discriminate|].
    f_equal. now apply IH.
  - f_equal. now apply IH.
Qed.

Lemma tidy_weaken s : tidy true s = true -> tidy false s = true.
Proof.
  destruct s as [|c s]; simpl; [reflexivity|].
  destruct (is_space c); [|trivial].
  rewrite andb_false_r. discriminate.
Qed.

Lemma tidy_lstrip s : forall b, tidy b s = true -> tidy false (lstrip s) = true.
Proof.
  induction s as [|c s IH]; intros b H; simpl in *; [reflexivity|].
  destruct (is_space c) eqn:E.
  - apply andb_prop in H. destruct H as [_ Hs]. now apply (IH true).
  - simpl. now rewrite E.
Qed.

Lemma tidy_cons b c s :
  tidy b (c :: s) =
  if is_space c then (c =? 32)%N && negb b && tidy true s else tidy false s.
Proof. reflexivity. Qed.

Lemma tidy_rstrip s : forall b, tidy b s = true -> tidy b (rstrip s) = true.
Proof.
  induction s as [|c s IH]; intros b H; [reflexivity|].
  rewrite rstrip_cons. rewrite tidy_cons in H.
  destruct (is_space c) eqn:E.
  - apply andb_prop in H. destruct H as [H Hs].
    specialize (IH true Hs). destruct (rstrip s) as [|x r]; [reflexivity|].
    rewrite tidy_cons, E, H, IH. reflexivity.
  - specialize (IH false H). destruct (rstrip s) as [|x r].
    + rewrite tidy_cons, E. reflexivity.
    + rewrite tidy_cons, E. exact IH.
Qed.

Lemma tidy_strip s : tidy false s = true -> tidy false (strip s) = true.
Proof. intros H. unfold strip. eapply tidy_rstrip, tidy_lstrip, H. Qed.

(** ** [test_import_extractor] on a stylesheet of [@import] statements *)

Lemma run_Group n r s cs k :
  run (Group n r) s cs k =
  run r s cs (fun s' cs' => k s' ((n, firstn (length s - length s') s) :: cs')).
Proof. reflexivity. Qed.

Lemma firstn_app_exact (u tl : pystr) :
  firstn (length (u ++ tl) - length tl) (u ++ tl) = u.
Proof.
  rewrite length_app, Nat.add_sub.
  now rewrite firstn_app, firstn_all, Nat.sub_diag, app_nil_r.
Qed.

Lemma is_closer_cases c :
  is_closer c = true ->
  c = [] \/ c = [sq] \/ c = [dq] \/ c = [41%N] \/ c = [sq; 41%N]
  \/ c = [dq; 41%N].
Proof.
  unfold is_closer. cbn [existsb]. rewrite !orb_true_iff, !str_eqb_eq.
  intuition discriminate.
Qed.

Lemma is_opener_cases o :
  is_opener o = true ->
  exists q, (q = [] \/ q = [sq] \/ q = [dq]) /\ (o = q \/ o = lit "url(" ++ q).
Proof.
  unfold is_opener. cbn [existsb]. rewrite !orb_true_iff, !str_eqb_eq.
  intros [H|[H|[H|[H|[H|[H|H]]]]]]; try discriminate; subst;
    [exists [] | exists [sq] | exists [dq] | exists [] | exists [sq] | exists [dq]];
    tauto.
Qed.

(** What a character of a URL is not. *)
Lemma url_char_not c :
  url_char c = true ->
  is_space c = false /\ (c =? 59)%N = false /\ (c =? 39)%N = false /\
  (c =? 34)%N = false /\ (c =? 40)%N = false /\ (c =? 41)%N = false.
Proof.
  unfold url_char. rewrite negb_true_iff, !orb_false_iff. tauto.
Qed.

Lemma url_char_dot c : url_char c = true -> negb (c =? 10)%N = true.
Proof.
  intros H. apply url_char_not in H. destruct H as [H _].
  destruct (c =? 10)%N eqn:E; [|reflexivity].
  apply N.eqb_eq in E. subst. discriminate.
Qed.

Lemma tail_re_refuses c s cs k :
  url_char c = true -> run tail_re (c :: s) cs k = None.
Proof.
  intros H. apply url_char_not in H.
  destruct H as (_ & H59 & H39 & H34 & _ & H41).
  unfold tail_re, quote, Ch, char_eqb. cbn [run orelse].
  rewrite H39, H34. cbn [orb orelse].
  rewrite (N.eqb_sym 41 c), H41. cbn [orelse].
  now rewrite (N.eqb_sym 59 c), H59.
Qed.

Lemma tail_re_takes closer rest cs :
  is_closer closer = true ->
  run tail_re (closer ++ [59%N] ++ rest) cs (fun s' cs' => Some (cs', s'))
  = Some (cs, rest).
Proof.
  intros H. apply is_closer_cases in H.
  destruct H as [->|[->|[->|[->|[->| ->]]]]]; reflexivity.
Qed.

Lemma capture_re_url url closer rest cs :
  forallb url_char url = true -> is_closer closer = true ->
  run capture_re (url ++ closer ++ [59%N] ++ rest) cs
      (fun s' cs' => Some (cs', s'))
  = Some ((2, url) :: cs, rest).
Proof.
  intros Hu Hc. unfold capture_re. rewrite run_Seq, run_Group.
  unfold dot. apply run_Lazy_Chr.
  - rewrite forallb_forall in *. intros c Hin. apply url_char_dot. now apply Hu.
  - intros i Hi.
    destruct (skipn i url) as [|c w] eqn:E.
    + apply (f_equal (@length _)) in E. rewrite length_skipn in E. simpl in E. lia.
    + cbn [app]. apply tail_re_refuses.
      rewrite forallb_forall in Hu. apply Hu.
      rewrite <- (firstn_skipn i url), E. apply in_or_app. right. now left.
  - rewrite firstn_app_exact. now apply tail_re_takes.
Qed.

Lemma quoted_re_url q url closer rest cs :
  q = [] \/ q = [sq] \/ q = [dq] ->
  forallb url_char url = true -> is_closer closer = true ->
  exists cs',
    run quoted_re (q ++ url ++ closer ++ [59%N] ++ rest) cs
        (fun s' cs' => Some (cs', s')) = Some (cs', rest)
    /\ group_or_empty 2 cs' = url.
Proof.
  intros Hq Hu Hc. unfold quoted_re. rewrite run_Seq.
  destruct Hq as [->|[->| ->]].
  - destruct url as [|c url].
    + exists ((2, []) :: cs). split; [|reflexivity].
      apply is_closer_cases in Hc.
      destruct Hc as [->|[->|[->|[->|[->| ->]]]]].
      * rewrite run_Opt_skip by reflexivity. now apply (capture_re_url [] []).
      * apply run_Opt_take. now apply (capture_re_url [] [] rest).
      * apply run_Opt_take. now apply (capture_re_url [] [] rest).
      * rewrite run_Opt_skip by reflexivity.
        now apply (capture_re_url [] [41%N]).
      * apply run_Opt_take. now apply (capture_re_url [] [41%N] rest).
      * apply run_Opt_take. now apply (capture_re_url [] [41%N] rest).
    + exists ((2, c :: url) :: cs). split; [|reflexivity].
      rewrite run_Opt_skip.
      * now apply capture_re_url.
      * cbn [app]. unfold quote. rewrite run_Chr_cons.
        simpl in Hu. apply andb_prop in Hu. destruct Hu as [Hu _].
        apply url_char_not in Hu. destruct Hu as (_ & _ & H39 & H34 & _).
        now rewrite H39, H34.
  - exists ((2, url) :: cs). split; [|reflexivity].
    apply run_Opt_take. cbn [app]. unfold quote. rewrite run_Chr_cons.
    cbn [N.eqb Pos.eqb orb]. now apply capture_re_url.
  - exists ((2, url) :: cs). split; [|reflexivity].
    apply run_Opt_take. cbn [app]. unfold quote. rewrite run_Chr_cons.
    cbn [N.eqb Pos.eqb orb]. now apply capture_re_url.
Qed.

(** The text of a URL and what may close it never reads [url(]. *)
Lemma no_url_paren url closer rest :
  forallb url_char url = true -> is_closer closer = true ->
  startswith (lit "url(") (url ++ closer ++ [59%N] ++ rest) = false.
Proof.
  intros Hu Hc.
  destruct url as [|a [|b [|c [|d url]]]].
  1-4: apply is_closer_cases in Hc;
       destruct Hc as [->|[->|[->|[->|[->| ->]]]]]; cbn;
       rewrite ?andb_false_r; reflexivity.
  cbn in Hu. apply andb_prop in Hu. destruct Hu as [_ Hu].
  apply andb_prop in Hu. destruct Hu as [_ Hu].
  apply andb_prop in Hu. destruct Hu as [_ Hu].
  apply andb_prop in Hu. destruct Hu as [Hd _].
  apply url_char_not in Hd. destruct Hd as (_ & _ & _ & _ & H40 & _).
  change (lit "url(") with [117; 114; 108; 40]%N.
  cbn [app startswith]. unfold char_eqb. rewrite (N.eqb_sym 40 d), H40.
  now rewrite !andb_false_r.
Qed.

(** After the blanks comes a character that is no blank. *)
Lemma after_blank_stops o url closer rest :
  is_opener o = true -> forallb url_char url = true ->
  is_closer closer = true ->
  stops is_space (o ++ url ++ closer ++ [59%N] ++ rest).
Proof.
  intros Ho Hu Hc. apply is_opener_cases in Ho.
  destruct Ho as (q & Hq & Ho).
  destruct Ho as [->| ->]; [|reflexivity].
  destruct Hq as [->|[->| ->]]; [|reflexivity|reflexivity].
  destruct url as [|c url].
  - apply is_closer_cases in Hc.
    destruct Hc as [->|[->|[->|[->|[->| ->]]]]]; reflexivity.
  - simpl in Hu. apply andb_prop in Hu. destruct Hu as [Hu _].
    apply url_char_not in Hu. now destruct Hu as [Hs _].
Qed.

Lemma opened_re_url o url closer rest :
  is_opener o = true -> forallb url_char url = true ->
  is_closer closer = true ->
  exists cs,
    run opened_re (o ++ url ++ closer ++ [59%N] ++ rest) []
        (fun s' cs' => Some (cs', s')) = Some (cs, rest)
    /\ group_or_empty 2 cs = url.
Proof.
  intros Ho Hu Hc. apply is_opener_cases in Ho.
  destruct Ho as (q & Hq & Ho). unfold opened_re. rewrite run_Seq.
  destruct Ho as [->| ->].
  - rewrite run_Opt_skip.
    + now apply quoted_re_url.
    + rewrite run_Group. apply run_Lit_miss.
      destruct Hq as [->|[->| ->]]; [|reflexivity|reflexivity].
      now apply no_url_paren.
  - rewrite <- app_assoc.
    destruct (quoted_re_url q url closer rest
                [(1%nat, firstn (length (lit "url(" ++ q ++ url ++ closer ++ [59%N] ++ rest)
                           - length (q ++ url ++ closer ++ [59%N] ++ rest))
                          (lit "url(" ++ q ++ url ++ closer ++ [59%N] ++ rest))]
                Hq Hu Hc) as (cs & H & G).
    exists cs. split; [|exact G].
    apply run_Opt_take. rewrite run_Group, run_Lit_app. exact H.
Qed.

Lemma import_re_item i rest :
  item_ok i = true ->
  exists cs,
    re_match import_re (item_stmt i ++ rest) = Some (cs, rest)
    /\ group_or_empty 2 cs = url i.
Proof.
  unfold item_ok. rewrite !andb_true_iff.
  intros [[[[[_ Hb] Hs] Ho] Hu] Hc].
  destruct (opened_re_url (opener i) (url i) (closer i) rest Ho Hu Hc)
    as (cs & H & G).
  exists cs. split; [|exact G].
  unfold item_stmt. rewrite <- !app_assoc.
  unfold re_match, import_re. rewrite run_Seq, run_Lit_app.
  destruct (blank i) as [|b bs]; [discriminate|].
  simpl in Hs. apply andb_prop in Hs. destruct Hs as [Hb1 Hbs].
  unfold Plus. rewrite !run_Seq. cbn [app]. unfold space at 1.
  rewrite run_Chr_cons, Hb1.
  apply run_Star_Chr_all; [exact Hbs | now apply after_blank_stops | exact H].
Qed.

Lemma import_re_needs_at c s :
  (c =? 64)%N = false -> re_match import_re (c :: s) = None.
Proof.
  intros H. unfold re_match, import_re. rewrite run_Seq.
  apply run_Lit_miss. change (lit "@import") with (64%N :: lit "import").
  cbn [startswith]. unfold char_eqb. now rewrite (N.eqb_sym 64 c), H.
Qed.

Lemma scan_import_before b s :
  no_at b = true ->
  matches_group 2 (scan import_re (b ++ s))
  = matches_group 2 (scan import_re s).
Proof.
  induction b as [|c b IH]; intros H; [reflexivity|].
  simpl in H. apply andb_prop in H. destruct H as [Hc H].
  apply negb_true_iff in Hc.
  cbn [app]. rewrite scan_miss by now apply import_re_needs_at.
  now apply IH.
Qed.

(** ** The statements [import_stmt_re] stands for *)

Lemma lang_Ch c m : lang (Ch c) m <-> m = [c].
Proof.
  split.
  - intros H. apply lang_Chr_inv in H. destruct H as (x & -> & Hx).
    apply char_eqb_eq in Hx. now subst.
  - intros ->. constructor. apply char_eqb_refl.
Qed.

Lemma lang_Opt r m : lang (Opt r) m <-> lang r m \/ m = [].
Proof.
  split; [apply lang_Opt_inv|].
  intros [H| ->]; [now apply L_Opt_take | apply L_Opt_skip].
Qed.

Lemma lang_Seq r1 r2 m :
  lang (Seq r1 r2) m <-> exists a b, m = a ++ b /\ lang r1 a /\ lang r2 b.
Proof.
  split; [apply lang_Seq_inv|].
  intros (a & b & -> & Ha & Hb). now constructor.
Qed.

Lemma lang_quote m : lang quote m <-> m = [sq] \/ m = [dq].
Proof.
  unfold quote. split.
  - intros H. apply lang_Chr_inv in H. destruct H as (c & -> & Hc).
    apply orb_prop in Hc. destruct Hc as [Hc|Hc]; apply N.eqb_eq in Hc; subst; auto.
  - intros [-> | ->]; now constructor.
Qed.

Lemma lang_Opt_quote m : lang (Opt quote) m <-> optional_quote m.
Proof. rewrite lang_Opt, lang_quote. unfold optional_quote. tauto. Qed.

Lemma lang_import_stmt url m :
  lang (import_stmt_re url) m <-> is_import_stmt url m.
Proof.
  unfold import_stmt_re, is_import_stmt. split.
  - intros H.
    apply lang_Seq in H. destruct H as (a1 & m1 & -> & H1 & H).
    apply lang_Seq in H. destruct H as (a2 & m2 & -> & H2 & H).
    apply lang_Seq in H. destruct H as (a3 & m3 & -> & H3 & H).
    apply lang_Seq in H. destruct H as (a4 & m4 & -> & H4 & H).
    apply lang_Seq in H. destruct H as (a5 & m5 & -> & H5 & H).
    apply lang_Seq in H. destruct H as (a6 & m6 & -> & H6 & H).
    apply lang_Seq in H. destruct H as (a7 & a8 & -> & H7 & H8).
    apply lang_Lit in H1, H5. subst a1 a5.
    apply lang_Plus_Chr in H2. destruct H2 as [N2 S2].
    apply lang_Opt in H3. rewrite lang_Lit in H3.
    apply lang_Opt_quote in H4, H6.
    apply lang_Opt in H7. rewrite lang_Ch in H7.
    apply lang_Ch in H8. subst a8.
    exists a2, a3, a4, a6, a7. repeat split; auto; tauto.
  - intros (ws & o & q1 & q2 & p & -> & N & S & O & Q1 & Q2 & P).
    apply lang_Seq. exists (lit "@import"), (ws ++ o ++ q1 ++ url ++ q2 ++ p ++ [59%N]).
    repeat split; [now apply lang_Lit|].
    apply lang_Seq. exists ws, (o ++ q1 ++ url ++ q2 ++ p ++ [59%N]).
    repeat split; [now apply lang_Plus_Chr|].
    apply lang_Seq. exists o, (q1 ++ url ++ q2 ++ p ++ [59%N]).
    repeat split; [apply lang_Opt; rewrite lang_Lit; tauto|].
    apply lang_Seq. exists q1, (url ++ q2 ++ p ++ [59%N]).
    repeat split; [now apply lang_Opt_quote|].
    apply lang_Seq. exists url, (q2 ++ p ++ [59%N]).
    repeat split; [now apply lang_Lit|].
    apply lang_Seq. exists q2, (p ++ [59%N]).
    repeat split; [now apply lang_Opt_quote|].
    apply lang_Seq. exists p, [59%N].
    repeat split; [apply lang_Opt; rewrite lang_Ch; tauto | now apply lang_Ch].
Qed.

Lemma import_stmt_nonempty url m : is_import_stmt url m -> m <> [].
Proof. intros (ws & o & q1 & q2 & p & -> & _). discriminate. Qed.

(** One pass of the resolver's substitution: a statement for the URL is
    replaced wherever one starts, anything else is copied. *)
Lemma sub_plain_rewritten url r s :
  rewritten (is_import_stmt url) r s (sub_plain (import_stmt_re url) r s).
Proof.
  unfold sub_plain.
  apply (scan_ind (import_stmt_re url) (fun s ps =>
    rewritten (is_import_stmt url) r s (substitute (map TLit r) ps)));
    cbn [substitute].
  - constructor.
  - intros c s0 H IH. apply rw_copy; [|exact IH].
    intros m rest Hm E. apply lang_import_stmt in Hm.
    exact (re_match_complete _ _ H m rest E Hm).
  - intros c s0 cs H _. exfalso.
    destruct (re_match_sound _ _ _ _ H) as (m & E & L).
    apply lang_import_stmt, import_stmt_nonempty in L.
    apply (f_equal (@length _)) in E. rewrite length_app in E.
    destruct m; [congruence | simpl in E; lia].
  - intros m rest cs _ L _ IH. rewrite expand_plain.
    apply rw_stmt; [now apply lang_import_stmt | exact IH].
Qed.

(** ** [test_minify_css] *)

Lemma minify_tidy css : tidy false (test_minify_css css) = true.
Proof.
  unfold test_minify_css. rewrite collapse_spaces_squeeze.
  apply tidy_strip, tidy_squeeze.
Qed.

Lemma minify_strip css : strip (test_minify_css css) = test_minify_css css.
Proof. unfold test_minify_css. apply strip_idem. Qed.

Lemma minify_length css :
  (length (test_minify_css css) <= length (remove_comments css))%nat.
Proof.
  unfold test_minify_css. rewrite collapse_spaces_squeeze.
  etransitivity; [apply strip_length | apply squeeze_length].
Qed.

End PatternFacts.

(* ===================================================================== *)
(** * What the extractors capture *)
(* ===================================================================== *)

Module ExtractorFacts.

Import ReFacts PyStrFacts PatternFacts.

(** Where a lazy run of a character class ends: at the first place from
    which the rest of the pattern matches. *)
Lemma run_Lazy_Chr_first p k : forall s cs res,
  run (LazyStar (Chr p)) s cs k = Some res ->
  exists i,
    i <= length s /\ forallb p (firstn i s) = true
    /\ k (skipn i s) cs = Some res
    /\ forall j, j < i -> k (skipn j s) cs = None.
Proof.
  induction s as [|c s IH]; intros cs res H; rewrite run_LazyStar in H;
    apply orelse_some in H.
  - destruct H as [H | [_ H]]; [|discriminate].
    exists 0. repeat split; auto. intros j Hj. lia.
  - destruct H as [H | [N H]].
    + exists 0. repeat split; auto; [simpl; lia | intros j Hj; lia].
    + rewrite run_Chr_cons in H. destruct (p c) eqn:Pc; [|discriminate].
      unfold progress in H.
      replace (length s <? length (c :: s)) with true in H
        by (symmetry; apply Nat.ltb_lt; simpl; lia).
      destruct (IH cs res H) as (i & Hi & Hp & Hk & Hn).
      exists (S i). repeat split.
      * simpl. lia.
      * simpl. now rewrite Pc, Hp.
      * exact Hk.
      * intros [|j] Hj; [exact N|]. apply Hn. lia.
Qed.

(** A pattern without groups hands on the captures it was given. *)
Lemma greedy_groupfree r k res
  (IH : forall s cs k res, run r s cs k = Some res ->
        exists s', k s' cs = Some res) n :
  forall s cs, greedy (run r) k n s cs = Some res ->
  exists s', k s' cs = Some res.
Proof.
  induction n as [|n IHn]; intros s cs H; simpl in H; [eauto|].
  apply orelse_some in H. destruct H as [H | [_ H]]; [|eauto].
  apply IH in H. destruct H as [s1 H]. unfold progress in H.
  destruct (_ <? _); [|discriminate]. now apply IHn in H.
Qed.

Lemma lazy_groupfree r k res
  (IH : forall s cs k res, run r s cs k = Some res ->
        exists s', k s' cs = Some res) n :
  forall s cs, lazy (run r) k n s cs = Some res ->
  exists s', k s' cs = Some res.
Proof.
  induction n as [|n IHn]; intros s cs H; simpl in H; [eauto|].
  apply orelse_some in H. destruct H as [H | [_ H]]; [eauto|].
  apply IH in H. destruct H as [s1 H]. unfold progress in H.
  destruct (_ <? _); [|discriminate]. now apply IHn in H.
Qed.

Lemma run_groupfree r :
  groupfree r = true ->
  forall s cs k res, run r s cs k = Some res -> exists s', k s' cs = Some res.
Proof.
  induction r as [| p | r1 IH1 r2 IH2 | r IH | r IH | r IH | n r IH];
    simpl; intros G s cs k res H.
  - eauto.
  - destruct s as [|c s]; [discriminate|]. destruct (p c); [eauto|discriminate].
  - apply andb_prop in G. destruct G as [G1 G2].
    apply (IH1 G1) in H. destruct H as [s1 H]. now apply (IH2 G2) in H.
  - apply orelse_some in H. destruct H as [H | [_ H]]; [|eauto].
    now apply (IH G) in H.
  - eapply greedy_groupfree; eauto.
  - eapply lazy_groupfree; eauto.
  - discriminate.
Qed.

(** The characters of a prefix, from what holds where its suffixes start. *)
Lemma firstn_without (stopc : char) : forall i s,
  forallb (fun c => negb (c =? 10)%N) (firstn i s) = true ->
  (forall j x, j < i -> skipn j s <> stopc :: x) ->
  forallb (fun c => negb (c =? stopc)%N && negb (c =? 10)%N) (firstn i s) = true.
Proof.
  induction i as [|i IH]; intros s Hd Hs; [reflexivity|].
  destruct s as [|c s]; [reflexivity|].
  cbn [firstn forallb] in *. apply andb_prop in Hd. destruct Hd as [Hc Hd].
  rewrite Hc, andb_true_r. rewrite IH; [|exact Hd|].
  - rewrite andb_true_r. destruct (c =? stopc)%N eqn:E; [|reflexivity].
    apply N.eqb_eq in E. subst c. exfalso.
    apply (Hs 0 s); [lia | reflexivity].
  - intros j x Hj. apply (Hs (S j) x). lia.
Qed.

(** A lazy group in front of a group-free end that cannot refuse the
    character [stopc] captures a text without [stopc] and without a
    newline. *)
Lemma lazy_group_capture n tail stopc s cs0 cs rest :
  groupfree tail = true ->
  (forall x cs', run tail (stopc :: x) cs' (fun s' c' => Some (c', s')) <> None) ->
  run (Seq (Group n (LazyStar dot)) tail) s cs0 (fun s' c' => Some (c', s'))
    = Some (cs, rest) ->
  exists cap,
    cs = (n, cap) :: cs0
    /\ forallb (fun c => negb (c =? stopc)%N && negb (c =? 10)%N) cap = true.
Proof.
  intros G T H. rewrite run_Seq, run_Group in H. unfold dot in H.
  apply run_Lazy_Chr_first in H. destruct H as (i & Hi & Hp & Hk & Hn).
  apply (run_groupfree tail G) in Hk. destruct Hk as [s' Hk].
  injection Hk as <- _.
  rewrite length_skipn.
  replace (length s - (length s - i)) with i by lia.
  eexists. split; [reflexivity|].
  apply firstn_without; [exact Hp|].
  intros j x Hj E. specialize (Hn j Hj). cbv beta in Hn.
  apply (T x ((n, firstn (length s - length (skipn j s)) s) :: cs0)).
  rewrite <- Hn. f_equal. symmetry. exact E.
Qed.

(** Peeling one part off the front of a pattern that matched. *)
Lemma run_Seq_peel r1 r2 s cs k res :
  run (Seq r1 r2) s cs k = Some res ->
  exists s1 cs1, run r2 s1 cs1 k = Some res.
Proof.
  intros H. rewrite run_Seq in H. apply run_sound in H.
  destruct H as (m & s1 & cs1 & _ & _ & H). eauto.
Qed.

Lemma import_re_capture s cs rest :
  re_match import_re s = Some (cs, rest) ->
  forallb import_url_char (group_or_empty 2 cs) = true.
Proof.
  unfold re_match, import_re. intros H.
  apply run_Seq_peel in H. destruct H as (s1 & cs1 & H).
  apply run_Seq_peel in H. destruct H as (s2 & cs2 & H).
  apply run_Seq_peel in H. destruct H as (s3 & cs3 & H).
  apply run_Seq_peel in H. destruct H as (s4 & cs4 & H).
  apply (lazy_group_capture 2 tail_re 59%N) in H.
  - destruct H as (cap & -> & Hc). unfold group_or_empty. simpl. exact Hc.
  - reflexivity.
  - intros x cs'. discriminate.
Qed.

Lemma asset_re_capture s cs rest :
  re_match asset_re s = Some (cs, rest) ->
  forallb asset_url_char (group_or_empty 1 cs) = true.
Proof.
  unfold re_match, asset_re. intros H.
  apply run_Seq_peel in H. destruct H as (s1 & cs1 & H).
  apply run_Seq_peel in H. destruct H as (s2 & cs2 & H).
  apply (lazy_group_capture 1 asset_tail_re 41%N) in H.
  - destruct H as (cap & -> & Hc). unfold group_or_empty. simpl. exact Hc.
  - reflexivity.
  - intros x cs'. discriminate.
Qed.

(** A property of every capture of a pattern holds of all that [findall]
    returns. *)
Lemma findall_group_all r g (Q : pystr -> Prop) :
  (forall s cs rest, re_match r s = Some (cs, rest) -> Q (group_or_empty g cs)) ->
  forall s, Forall Q (findall_group r g s).
Proof.
  intros HQ s. unfold findall_group.
  apply (scan_ind r (fun _ ps => Forall Q (matches_group g ps))); simpl; auto.
  intros m rest cs _ _ H IH. constructor; [|exact IH]. exact (HQ _ _ _ H).
Qed.

(** ** [test_asset_extractor] on a stylesheet of references *)

Lemma is_quote_opt_cases q :
  is_quote_opt q = true -> q = [] \/ q = [sq] \/ q = [dq].
Proof.
  unfold is_quote_opt. cbn [existsb]. rewrite !orb_true_iff, !str_eqb_eq.
  intuition discriminate.
Qed.

Lemma asset_tail_re_refuses c s cs k :
  url_char c = true -> run asset_tail_re (c :: s) cs k = None.
Proof.
  intros H. apply url_char_not in H.
  destruct H as (_ & _ & H39 & H34 & _ & H41).
  unfold asset_tail_re, quote, Ch, char_eqb. cbn [run orelse].
  rewrite H39, H34. cbn [orb orelse].
  now rewrite (N.eqb_sym 41 c), H41.
Qed.

Lemma asset_tail_re_takes q rest cs :
  is_quote_opt q = true ->
  run asset_tail_re (q ++ [41%N] ++ rest) cs (fun s' cs' => Some (cs', s'))
  = Some (cs, rest).
Proof.
  intros H. apply is_quote_opt_cases in H.
  destruct H as [->|[->| ->]]; reflexivity.
Qed.

Lemma asset_capture_url u q rest cs :
  forallb url_char u = true -> is_quote_opt q = true ->
  run asset_capture_re (u ++ q ++ [41%N] ++ rest) cs
      (fun s' cs' => Some (cs', s'))
  = Some ((1, u) :: cs, rest).
Proof.
  intros Hu Hq. unfold asset_capture_re. rewrite run_Seq, run_Group.
  unfold dot. apply run_Lazy_Chr.
  - rewrite forallb_forall in *. intros c Hin. apply url_char_dot. now apply Hu.
  - intros i Hi.
    destruct (skipn i u) as [|c w] eqn:E.
    + apply (f_equal (@length _)) in E. rewrite length_skipn in E. simpl in E. lia.
    + cbn [app]. apply asset_tail_re_refuses.
      rewrite forallb_forall in Hu. apply Hu.
      rewrite <- (firstn_skipn i u), E. apply in_or_app. right. now left.
  - rewrite firstn_app_exact. now apply asset_tail_re_takes.
Qed.

Lemma asset_re_ref i rest :
  asset_item_ok i = true ->
  exists cs,
    re_match asset_re (asset_ref i ++ rest) = Some (cs, rest)
    /\ group_or_empty 1 cs = a_url i.
Proof.
  unfold asset_item_ok. rewrite !andb_true_iff.
  intros [[[_ Ho] Hu] Hc].
  exists [(1, a_url i)]. split; [|reflexivity].
  unfold asset_ref. rewrite <- !app_assoc.
  unfold re_match, asset_re. rewrite run_Seq, run_Lit_app, run_Seq.
  apply is_quote_opt_cases in Ho. destruct Ho as [->|[->| ->]].
  - cbn [app]. destruct (a_url i) as [|c u] eqn:Eu.
    + apply is_quote_opt_cases in Hc. destruct Hc as [->|[->| ->]].
      * rewrite run_Opt_skip by reflexivity.
        now apply (asset_capture_url [] []).
      * apply run_Opt_take. now apply (asset_capture_url [] [] rest).
      * apply run_Opt_take. now apply (asset_capture_url [] [] rest).
    + rewrite run_Opt_skip.
      * now apply asset_capture_url.
      * cbn [app]. unfold quote. rewrite run_Chr_cons.
        simpl in Hu. apply andb_prop in Hu. destruct Hu as [Hu _].
        apply url_char_not in Hu. destruct Hu as (_ & _ & H39 & H34 & _).
        now rewrite H39, H34.
  - apply run_Opt_take. cbn [app]. unfold quote. rewrite run_Chr_cons.
    cbn [N.eqb Pos.eqb orb]. now apply asset_capture_url.
  - apply run_Opt_take. cbn [app]. unfold quote. rewrite run_Chr_cons.
    cbn [N.eqb Pos.eqb orb]. now apply asset_capture_url.
Qed.

(** No reference starts in a text without an opening parenthesis, whatever
    reference or end of text follows it. *)
Lemma asset_re_miss_before c b rest :
  no_paren (c :: b) = true ->
  rest = [] \/ (exists r, rest = lit "url(" ++ r) ->
  re_match asset_re (c :: b ++ rest) = None.
Proof.
  intros Hb Hr. unfold re_match, asset_re. rewrite run_Seq.
  apply run_Lit_miss. change (lit "url(") with [117; 114; 108; 40]%N.
  destruct b as [|x [|y [|z b]]].
  4: { cbn in Hb. apply andb_prop in Hb. destruct Hb as [_ Hb].
       apply andb_prop in Hb. destruct Hb as [_ Hb].
       apply andb_prop in Hb. destruct Hb as [_ Hb].
       apply andb_prop in Hb. destruct Hb as [Hz _].
       apply negb_true_iff in Hz.
       cbn [app startswith]. unfold char_eqb.
       rewrite (N.eqb_sym 40 z), Hz. now rewrite !andb_false_r. }
  all: destruct Hr as [->|[r ->]];
    [| change (lit "url(") with [117; 114; 108; 40]%N ];
    cbn [app startswith]; unfold char_eqb;
    cbn [N.eqb Pos.eqb]; rewrite ?andb_false_r; reflexivity.
Qed.

Lemma scan_asset_before b rest :
  no_paren b = true ->
  rest = [] \/ (exists r, rest = lit "url(" ++ r) ->
  matches_group 1 (scan asset_re (b ++ rest))
  = matches_group 1 (scan asset_re rest).
Proof.
  induction b as [|c b IH]; intros H Hr; [reflexivity|].
  cbn [app]. rewrite scan_miss by now apply asset_re_miss_before.
  cbn [matches_group]. apply IH; [|exact Hr].
  simpl in H. apply andb_prop in H. tauto.
Qed.

End ExtractorFacts.

(* ===================================================================== *)
(** * The whole pipeline *)
(* ===================================================================== *)

Module PipelineFacts.

Import ReFacts PyStrFacts PatternFacts ResolverFacts.

Local Open Scope N_scope.

(** ** Events of a computation *)

Lemma allW_ret {A} P (a : A) : allW P (retW a).
Proof. constructor. Qed.

Lemma allW_bind {A B} P (m : W A) (f : A -> W B) :
  allW P m -> (forall a, allW P (f a)) -> allW P (bindW m f).
Proof.
  unfold allW. intros Hm Hf. rewrite snd_bindW.
  apply Forall_app. split; [exact Hm | apply Hf].
Qed.

Lemma allW_when P b (m : W unit) : allW P m -> allW P (when b m).
Proof. intros H. destruct b; [exact H | constructor]. Qed.

Lemma allW_tell P t : Forall P t -> allW P (tell t).
Proof. intros H. exact H. Qed.

Lemma allM_ret {A} P (a : A) : allM P (retM a).
Proof. intros a' t H. injection H as _ <-. constructor. Qed.

Lemma allM_lift {A} P (w : W A) : allW P w -> allM P (lift w).
Proof. intros H a t E. injection E as E. subst w. exact H. Qed.

Lemma allM_bind {A B} P (m : M A) (f : A -> M B) :
  allM P m -> (forall a, allM P (f a)) -> allM P (bindM m f).
Proof.
  intros Hm Hf b t H. apply bindM_some in H.
  destruct H as (a & t1 & t2 & H1 & H2 & ->).
  apply Forall_app. split; [exact (Hm _ _ H1) | exact (Hf _ _ _ H2)].
Qed.

Section Invariant.

Variable g : Globals.
Variable requests_get : pystr -> option pystr -> fetch.
Variable fs : pystr -> option pystr.
Variable re_error : pystr -> pystr.
Variable P : event -> Prop.
Hypothesis P_get : forall url, P (Get url (headers g)).
Hypothesis P_log : forall content prefix, allW P (_log g content prefix).

Lemma all_on_exception url msg : allW P (on_exception g url msg).
Proof. apply allW_when, P_log. Qed.

Lemma all_asset_body embedded url :
  allW P (asset_body g requests_get embedded url).
Proof.
  unfold asset_body.
  destruct (contains (lit "data:") url).
  { apply allW_bind; [apply allW_when, P_log | intros; apply allW_ret]. }
  destruct (startswith (lit "/") url && mem (log_level g) [1; 2]).
  { apply allW_bind; [apply P_log | intros; apply allW_ret]. }
  apply allW_bind; [apply allW_when, P_log | intros _].
  apply allW_bind; [apply allW_tell; constructor; [apply P_get | constructor] | intros _].
  destruct (requests_get url (headers g)) as [response|msg].
  - destruct (status_code response =? 200);
      (apply allW_bind; [apply allW_when, P_log | intros; apply allW_ret]).
  - apply allW_bind; [apply all_on_exception | intros; apply allW_ret].
Qed.

Lemma all_asset_resolver urls : forall css,
  allW P (test_asset_resolver g requests_get urls css).
Proof.
  induction urls as [|url urls IH]; intros css; cbn [test_asset_resolver].
  - apply allW_ret.
  - apply allW_bind; [apply all_asset_body | intros; apply IH].
Qed.

Lemma all_asset_extractor css : allW P (test_asset_extractor g css).
Proof.
  unfold test_asset_extractor.
  apply allW_bind; [apply allW_when, P_log | intros; apply allW_ret].
Qed.

Lemma all_import_body resolve embedded url :
  (forall s, allM P (resolve s)) ->
  allM P (import_body g requests_get re_error resolve embedded url).
Proof.
  intros Hr. unfold import_body.
  apply allM_bind; [apply allM_lift, allW_when, P_log | intros _].
  destruct (startswith (lit "/") url && mem (log_level g) [1; 2]).
  { apply allM_bind; [apply allM_lift, P_log | intros; apply allM_ret]. }
  apply allM_bind; [apply allM_lift, allW_when, P_log | intros _].
  apply allM_bind;
    [apply allM_lift, allW_tell; constructor; [apply P_get | constructor]
    | intros _].
  destruct (requests_get url (headers g)) as [response|msg].
  - destruct (status_code response =? 200); [|apply allM_ret].
    apply allM_bind; [apply allM_lift, allW_when, P_log | intros _].
    apply allM_bind; [apply Hr | intros r].
    destruct (sub 0 (import_stmt_re url) r embedded).
    + apply allM_bind; [apply allM_lift, P_log | intros; apply allM_ret].
    + apply allM_bind; [apply allM_lift, all_on_exception | intros; apply allM_ret].
  - apply allM_bind; [apply allM_lift, all_on_exception | intros; apply allM_ret].
Qed.

Lemma all_import_loop resolve urls : forall css,
  (forall s, allM P (resolve s)) ->
  allM P (import_loop g requests_get re_error resolve urls css).
Proof.
  induction urls as [|url urls IH]; intros css Hr; cbn [import_loop].
  - apply allM_ret.
  - apply allM_bind; [now apply all_import_body | intros; now apply IH].
Qed.

Lemma all_resolve_css fuel : forall css,
  allM P (test_resolve_css g requests_get re_error fuel css).
Proof.
  induction fuel as [|fuel IH]; intros css; [discriminate|].
  cbn [test_resolve_css].
  apply allM_bind; [now apply all_import_loop | intros embedded].
  apply allM_bind; [apply allM_lift, all_asset_extractor | intros assets].
  apply allM_lift, all_asset_resolver.
Qed.

Hypothesis P_exists : forall path, P (Exists path).
Hypothesis P_read : forall path, P (Read path).

Lemma all_extract path compress :
  allM P (test_extract g requests_get fs path compress).
Proof.
  unfold test_extract.
  destruct (startswith (lit "http") path && contains (lit "://") path).
  - apply allM_bind; [apply allM_lift, allW_when, P_log | intros _].
    apply allM_bind;
      [apply allM_lift, allW_tell; constructor; [apply P_get | constructor]
      | intros _].
    destruct (requests_get (filepath g) (headers g)); apply allM_ret.
  - apply allM_bind;
      [apply allM_lift, allW_tell; constructor; [apply P_exists | constructor]
      | intros _].
    destruct (fs (filepath g)) as [css|].
    + apply allM_bind;
        [apply allM_lift, allW_tell; constructor; [apply P_read | constructor]
        | intros _].
      apply allM_ret.
    + apply allM_bind; [apply allM_lift, P_log | intros; apply allM_ret].
Qed.

End Invariant.

(** What [_log] emits is log output, and nothing when the log method is 0. *)
Lemma log_headers g h content prefix : allW (with_headers h) (_log g content prefix).
Proof.
  unfold _log, allW, when, tell, retW.
  destruct (mem (log_method g) [2; 3]), (mem (log_method g) [1; 3]); simpl;
    repeat constructor.
Qed.

Lemma log_silent g content prefix :
  log_method g = 0 -> allW not_log (_log g content prefix).
Proof.
  intros H. unfold _log, allW. rewrite H. simpl. constructor.
Qed.

(** ** Templates with a backslash *)

Lemma parse_template_plain_app groups a : forall fuel rest,
  plain a = true ->
  parse_template groups (length a + fuel) (a ++ rest)
  = match parse_template groups fuel rest with
    | Some t => Some (map TLit a ++ t)
    | None => None
    end.
Proof.
  induction a as [|c a IH]; intros fuel rest H.
  - simpl. now destruct (parse_template groups fuel rest).
  - simpl in H. apply andb_prop in H. destruct H as [Hc H].
    cbn [length app Nat.add parse_template]. rewrite Hc.
    rewrite IH by exact H.
    now destruct (parse_template groups fuel rest).
Qed.

Lemma parse_template_pair_step groups fuel rest :
  parse_template groups (S (S fuel)) (92 :: 92 :: rest)
  = tcons (TLit 92) (parse_template groups (S fuel) rest).
Proof. reflexivity. Qed.

(** Two backslashes in a row stand for one. *)
Lemma parse_template_backslash_pair groups a b :
  plain a = true -> plain b = true ->
  parse_template groups (length (a ++ [92; 92] ++ b)) (a ++ [92; 92] ++ b)
  = Some (map TLit (a ++ [92] ++ b)).
Proof.
  intros Ha Hb. rewrite length_app.
  rewrite parse_template_plain_app by exact Ha.
  cbn [length app]. rewrite parse_template_pair_step.
  rewrite (parse_template_plain groups b (S (length b)));
    [|exact Hb|apply Nat.le_succ_diag_r].
  cbn [tcons]. now rewrite !map_app.
Qed.

(** A backslash at the very end is refused. *)
Lemma parse_template_trailing_backslash groups a :
  plain a = true ->
  parse_template groups (length (a ++ [92])) (a ++ [92]) = None.
Proof.
  intros Ha. rewrite length_app.
  rewrite parse_template_plain_app by exact Ha. reflexivity.
Qed.

End PipelineFacts.

(* ===================================================================== *)
(** * The minifier, step by step *)
(* ===================================================================== *)

Module MinifyFacts.

Import ReFacts PyStrFacts PatternFacts.

(** ** The ends of a stripped text *)

Lemma lstrip_first s c :
  first_char (lstrip s) = Some c -> is_space c = false.
Proof.
  induction s as [|x s IH]; simpl; [discriminate|].
  destruct (is_space x) eqn:E; [exact IH|].
  simpl. intros H. injection H as <-. exact E.
Qed.

Lemma rstrip_last s c :
  last_char (rstrip s) = Some c -> is_space c = false.
Proof.
  unfold last_char, rstrip. rewrite rev_involutive. apply lstrip_first.
Qed.

Lemma rstrip_first s c :
  first_char s = Some c -> is_space c = false -> first_char (rstrip s) = Some c.
Proof.
  destruct s as [|x s]; [discriminate|]. simpl. intros H E.
  injection H as ->. rewrite rstrip_cons, E. now destruct (rstrip s).
Qed.

Lemma strip_ends s :
  (forall c, first_char (strip s) = Some c -> is_space c = false)
  /\ (forall c, last_char (strip s) = Some c -> is_space c = false).
Proof.
  split; intros c H.
  - unfold strip in H. destruct (lstrip s) as [|x u] eqn:E; [discriminate|].
    assert (Hx : is_space x = false)
      by (apply (lstrip_first s); now rewrite E).
    rewrite (rstrip_first (x :: u) x eq_refl Hx) in H. now injection H as <-.
  - unfold strip in H. now apply rstrip_last in H.
Qed.

(** ** Texts without a slash hold no comment *)

Lemma comment_re_needs_slash c s :
  (c =? 47)%N = false -> re_match comment_re (c :: s) = None.
Proof.
  intros H. unfold re_match, comment_re, slash, Ch.
  rewrite run_Seq, run_Chr_cons. unfold char_eqb.
  now rewrite (N.eqb_sym 47 c), H.
Qed.

(** Comment removal copies a text without a slash and goes on behind
    it. *)
Lemma remove_comments_before a s :
  no_slash a = true -> remove_comments (a ++ s) = a ++ remove_comments s.
Proof.
  unfold remove_comments, sub_plain.
  induction a as [|c a IH]; intros H; [reflexivity|].
  simpl in H. apply andb_prop in H. destruct H as [Hc H].
  apply negb_true_iff in Hc.
  cbn [app]. rewrite scan_miss by now apply comment_re_needs_slash.
  cbn [substitute]. f_equal. now apply IH.
Qed.

Lemma remove_comments_no_slash s : no_slash s = true -> remove_comments s = s.
Proof.
  intros H. rewrite <- (app_nil_r s) at 1.
  rewrite remove_comments_before by exact H.
  now rewrite app_nil_r.
Qed.

Lemma no_slash_squeeze s : forall b,
  no_slash s = true -> no_slash (squeeze b s) = true.
Proof.
  induction s as [|c s IH]; intros b H; [reflexivity|].
  simpl in H. apply andb_prop in H. destruct H as [Hc H].
  simpl. destruct (is_space c); [destruct b|]; simpl;
    rewrite ?Hc, ?IH; auto.
Qed.

Lemma no_slash_lstrip s : no_slash s = true -> no_slash (lstrip s) = true.
Proof.
  induction s as [|c s IH]; intros H; [reflexivity|].
  simpl. destruct (is_space c); [|exact H].
  simpl in H. apply andb_prop in H. now apply IH.
Qed.

Lemma forallb_rev {A} (f : A -> bool) (l : list A) :
  forallb f (rev l) = forallb f l.
Proof.
  induction l as [|x l IH]; [reflexivity|].
  cbn [rev forallb]. rewrite forallb_app, IH. cbn [forallb].
  rewrite andb_true_r. apply andb_comm.
Qed.

Lemma no_slash_rev s : no_slash (rev s) = no_slash s.
Proof. apply forallb_rev. Qed.

Lemma no_slash_strip s : no_slash s = true -> no_slash (strip s) = true.
Proof.
  intros H. unfold strip, rstrip. rewrite no_slash_rev.
  apply no_slash_lstrip. rewrite no_slash_rev. now apply no_slash_lstrip.
Qed.

Lemma no_slash_minify s : no_slash s = true -> no_slash (test_minify_css s) = true.
Proof.
  intros H. unfold test_minify_css.
  rewrite remove_comments_no_slash by exact H.
  rewrite collapse_spaces_squeeze.
  now apply no_slash_strip, no_slash_squeeze.
Qed.

(** ** A comment whose body holds no star *)

Lemma comment_re_simple body stars rest :
  no_star body = true -> stars <> [] ->
  forallb (char_eqb 42%N) stars = true ->
  re_match comment_re
    (lit "/*" ++ body ++ stars ++ [47%N] ++ rest) = Some ([], rest).
Proof.
  intros Hb Hs Ha. destruct stars as [|x st]; [congruence|].
  cbn [forallb] in Ha. apply andb_prop in Ha. destruct Ha as [Hx Hst].
  apply char_eqb_eq in Hx. subst x.
  unfold re_match, comment_re.
  change (lit "/*") with [47%N; 42%N]. cbn [app].
  unfold slash at 1. unfold Ch at 1. rewrite run_Seq, run_Chr_cons.
  cbn [char_eqb N.eqb Pos.eqb].
  unfold star at 1. unfold Ch at 1. rewrite run_Seq, run_Chr_cons.
  cbn [char_eqb N.eqb Pos.eqb].
  rewrite run_Seq. unfold not_star at 1.
  apply run_Star_Chr_all; [exact Hb | reflexivity |].
  unfold Plus. rewrite !run_Seq. unfold star at 1. unfold Ch at 1.
  rewrite run_Chr_cons. cbn [char_eqb N.eqb Pos.eqb].
  unfold star at 1. unfold Ch at 1.
  apply run_Star_Chr_all; [exact Hst | reflexivity |].
  rewrite run_Seq, run_Star, (run_Seq not_star_slash).
  unfold not_star_slash at 1. rewrite run_Chr_cons.
  reflexivity.
Qed.

End MinifyFacts.

(* ===================================================================== *)
(** * The claims *)
(* ===================================================================== *)

Import ReFacts PyStrFacts PatternFacts ResolverFacts Worlds.

Local Open Scope N_scope.

(** C1, at the failing setting.  With [--log-level 0] the guard
    [url.startswith('/') and log_level in [1, 2]] is false for a
    root-relative URL, so neither resolver passes it over: each calls
    [requests.get] with it.  The document stays as it was only because that
    call raises and the handler swallows the exception. *)
Theorem C1_root_relative_requested_at_log_level_0 :
  test_import_resolver quiet empty_net no_re_error 0
    [lit "/local/file.css"] (lit "@import '/local/file.css';")
  = Some (lit "@import '/local/file.css';",
          [Get (lit "/local/file.css") None])
  /\ test_asset_resolver quiet empty_net
       [lit "/img.png"] (lit "a{background:url(/img.png)}")
     = (lit "a{background:url(/img.png)}", [Get (lit "/img.png") None]).
Proof. split; vm_compute; reflexivity. Qed.




(** C3, at the failing setting.  [test_extract] tests its argument [path]
    but loads the module's global [filepath]: with the global at its initial
    value, a URL argument makes it request the empty URL, and the argument
    [style.css], a file that exists, makes it look for the empty path and
    return nothing. *)
Theorem C3_extract_loads_global_filepath :
  test_extract defaults empty_net no_files (lit "http://h/root.css") true
  = Some (Raises (lit "No scheme supplied"),
          [Console None (lit "Downloading css file: http://h/root.css");
           Get [] None])
  /\ test_extract defaults empty_net (one_file (lit "style.css") (lit "a{}"))
       (lit "style.css") true
     = Some (Returns None,
             [Exists [];
              Console None (lit "The path  does not exist. Skipping...")]).
Proof. split; vm_compute; reflexivity. Qed.




(** C5.  For an asset URL that the resolver fetches (it holds no [data:]
    and is not passed over as root-relative) and whose GET returns status
    200 with body [B] and content type [C], the turn of the URL in the Asset
    Resolver's loop, wherever the URL stands in the list, replaces every
    occurrence of the URL in the document as it then is, wherever it
    stands, by [data:C;base64,] followed by the base64 text of [B]: the
    document after the turn is the document before it read from the left,
    with that text in place of the URL wherever the URL stands and every
    other character kept; and the loop goes on from that document.  (The
    URL is not empty: [requests.get] answers no empty URL.) *)
Theorem C5_asset_inlined g requests_get url response C pre post css :
  url <> [] ->
  contains (lit "data:") url = false ->
  startswith (lit "/") url && mem (log_level g) [1; 2] = false ->
  requests_get url (headers g) = Got response ->
  status_code response = 200 ->
  content_type response = Some C ->
  substituted url
    (lit "data:" ++ C ++ lit ";base64," ++ b64encode (content response))
    (fst (test_asset_resolver g requests_get pre css))
    (fst (test_asset_resolver g requests_get (pre ++ [url]) css))
  /\ fst (test_asset_resolver g requests_get (pre ++ url :: post) css)
     = fst (test_asset_resolver g requests_get post
              (fst (test_asset_resolver g requests_get (pre ++ [url]) css))).
Proof.
  intros N D S G St Ct. split.
  - rewrite asset_resolver_app, asset_resolver_one. cbn [fst].
    rewrite (asset_body_200 g requests_get _ url response D S G St), Ct.
    now apply replace_substituted.
  - change (url :: post) with ([url] ++ post).
    now rewrite app_assoc, asset_resolver_app.
Qed.

Lemma C5_asset_inlined_witness :
  substituted (lit "http://h/i.png") (lit "data:image/png;base64,/w==")
    (lit "a{background:url(http://h/i.png)} /* http://h/i.png */")
    (lit "a{background:url(data:image/png;base64,/w==)} /* data:image/png;base64,/w== */")
  /\ fst (test_asset_resolver defaults example_net
            [lit "http://h/none.png"; lit "http://h/i.png";
             lit "http://h/none.png"]
            (lit "a{background:url(http://h/i.png)} /* http://h/i.png */"))
     = lit "a{background:url(data:image/png;base64,/w==)} /* data:image/png;base64,/w== */".
Proof.
  pose proof
    (C5_asset_inlined defaults example_net (lit "http://h/i.png")
       {| status_code := 200; text := []; content := [255];
          content_type := Some (lit "image/png") |} (lit "image/png")
       [lit "http://h/none.png"] [lit "http://h/none.png"]
       (lit "a{background:url(http://h/i.png)} /* http://h/i.png */")
       ltac:(discriminate) ltac:(reflexivity) ltac:(reflexivity)
       ltac:(reflexivity) ltac:(reflexivity) ltac:(reflexivity)) as H.
  vm_compute in H. vm_compute. exact H.
Defined.

(** C6.  A URL whose fetch raises or returns a status other than 200 leaves
    the document as it is in both resolvers, the loop goes on to the next
    URL, and the result for the other URLs is what it would be without
    it. *)
Theorem C6_failed_fetch_is_skipped g requests_get re_error url :
  failed (requests_get url (headers g)) = true ->
  (forall fuel css,
     doc (test_import_resolver g requests_get re_error fuel [url] css)
       = Some css)
  /\ (forall css, fst (test_asset_resolver g requests_get [url] css) = css)
  /\ (forall fuel before after css,
        doc (test_import_resolver g requests_get re_error fuel
               (before ++ url :: after) css)
        = doc (test_import_resolver g requests_get re_error fuel
                 (before ++ after) css))
  /\ (forall before after css,
        fst (test_asset_resolver g requests_get (before ++ url :: after) css)
        = fst (test_asset_resolver g requests_get (before ++ after) css)).
Proof.
  intros F. repeat split.
  - intros fuel css.
    exact (import_loop_skip g requests_get re_error
             (test_resolve_css g requests_get re_error fuel) url [] [] css F).
  - intros css. exact (asset_loop_skip g requests_get url [] [] css F).
  - intros fuel l1 l2 css. now apply import_loop_skip.
  - intros l1 l2 css. now apply asset_loop_skip.
Qed.

Lemma C6_failed_fetch_is_skipped_witness :
  (forall fuel css,
     doc (test_import_resolver defaults example_net no_re_error fuel
            [lit "http://h/gone.css"] css) = Some css)
  /\ (forall css,
        fst (test_asset_resolver defaults example_net
               [lit "http://h/gone.css"] css) = css)
  /\ (forall fuel before after css,
        doc (test_import_resolver defaults example_net no_re_error fuel
               (before ++ lit "http://h/gone.css" :: after) css)
        = doc (test_import_resolver defaults example_net no_re_error fuel
                 (before ++ after) css))
  /\ (forall before after css,
        fst (test_asset_resolver defaults example_net
               (before ++ lit "http://h/gone.css" :: after) css)
        = fst (test_asset_resolver defaults example_net (before ++ after) css)).
Proof.
  apply (C6_failed_fetch_is_skipped defaults example_net no_re_error
           (lit "http://h/gone.css")).
  reflexivity.
Defined.

(** C7.  [test_resolve_css] returns exactly what the two stages return one
    after the other: the Import Resolver on the imports extracted from the
    input, then the Asset Resolver on the assets extracted from the text the
    Import Resolver returned. *)
Theorem C7_resolve_css_is_imports_then_assets g requests_get re_error css r t :
  resolve_css_returns g requests_get re_error css (r, t) <->
  exists embedded t1 assets t2 t3,
    import_resolver_returns g requests_get re_error
      (test_import_extractor css) css (embedded, t1)
    /\ test_asset_extractor g embedded = (assets, t2)
    /\ test_asset_resolver g requests_get assets embedded = (r, t3)
    /\ t = t1 ++ t2 ++ t3.
Proof.
  unfold resolve_css_returns, import_resolver_returns, test_import_resolver.
  split.
  - intros [[|fuel] H]; [discriminate|]. cbn [test_resolve_css] in H.
    apply bindM_some in H. destruct H as (e & t1 & t' & H1 & H2 & ->).
    rewrite bindM_lift in H2. unfold lift in H2.
    destruct (test_asset_extractor g e) as [assets t2] eqn:EA.
    cbn [fst snd] in H2.
    destruct (test_asset_resolver g requests_get assets e) as [r' t3] eqn:ER.
    injection H2 as <- <-.
    exists e, t1, assets, t2, t3. repeat split; eauto.
  - intros (e & t1 & assets & t2 & t3 & [fuel H1] & H2 & H3 & ->).
    exists (S fuel). cbn [test_resolve_css].
    apply bindM_some. exists e, t1, (t2 ++ t3). repeat split; [exact H1|].
    rewrite bindM_lift, H2. cbn [fst snd]. unfold lift. now rewrite H3.
Qed.




(** C9 as stated fails: taking a comment out can put the two halves of
    another one together, and the second pass takes that one out. *)
Lemma C9_counterexample :
  ~ (forall x, test_minify_css (test_minify_css x) = test_minify_css x).
Proof.
  intros H. specialize (H (lit "//* c */* x */")).
  vm_compute in H. discriminate.
Qed.

(** C9, amended.  Minifying twice gives the same as minifying once exactly
    when the minified text holds no comment for the comment pattern to
    remove: blanks are collapsed and the ends are stripped for good by the
    first pass. *)
Theorem C9_minify_twice x :
  test_minify_css (test_minify_css x) = test_minify_css x <->
  remove_comments (test_minify_css x) = test_minify_css x.
Proof.
  set (m := test_minify_css x). split.
  - intros H. unfold remove_comments.
    destruct (has_match comment_re m) eqn:E.
    + exfalso. pose proof (minify_length m) as L1.
      destruct (sub_plain_delete_length comment_re m) as [_ L2].
      specialize (L2 E). fold (remove_comments m) in L2.
      rewrite H in L1. lia.
    + now apply sub_plain_no_match.
  - intros H. unfold test_minify_css at 1. rewrite H.
    rewrite collapse_spaces_squeeze.
    rewrite squeeze_tidy by apply minify_tidy. apply minify_strip.
Qed.

(** C10.  With an empty URL list each resolver returns the string it was
    given, with no effect; so [test_resolve_css] returns unchanged a string
    in which neither extractor finds a reference. *)
Theorem C10_nothing_to_resolve g requests_get re_error :
  (forall fuel css,
     test_import_resolver g requests_get re_error fuel [] css = Some (css, []))
  /\ (forall css, test_asset_resolver g requests_get [] css = (css, []))
  /\ (forall fuel css,
        test_import_extractor css = [] ->
        fst (test_asset_extractor g css) = [] ->
        doc (test_resolve_css g requests_get re_error (S fuel) css) = Some css).
Proof.
  split; [reflexivity|]. split; [reflexivity|].
  intros fuel css I A.
  destruct (resolve_css_no_refs g requests_get re_error fuel css I A)
    as (t & H & _).
  now rewrite H.
Qed.

Lemma C10_nothing_to_resolve_witness :
  doc (test_resolve_css chatty example_net no_re_error 1
         (lit "a { color: red; } /* no reference */"))
  = Some (lit "a { color: red; } /* no reference */").
Proof.
  apply (proj2 (proj2 (C10_nothing_to_resolve chatty example_net no_re_error))
           0%nat (lit "a { color: red; } /* no reference */"));
    vm_compute; reflexivity.
Defined.

(** * Beside the claims *)

(** X21.  At log level 1 or 2 a root-relative URL is passed over by both
    resolvers: no request is made and the document is left as it is. *)
Theorem root_relative_skipped_when_logging g requests_get re_error url :
  startswith (lit "/") url = true ->
  mem (log_level g) [1; 2] = true ->
  (forall fuel css,
     exists t,
       test_import_resolver g requests_get re_error fuel [url] css
         = Some (css, t)
       /\ requested t = [])
  /\ (forall css,
        fst (test_asset_resolver g requests_get [url] css) = css
        /\ requested (snd (test_asset_resolver g requests_get [url] css)) = []).
Proof.
  intros S L. split.
  - intros fuel css. unfold test_import_resolver. cbn [import_loop].
    destruct (import_body_root_relative g requests_get re_error
                (test_resolve_css g requests_get re_error fuel) css url S L)
      as (t & H & R).
    rewrite H. cbn [bindM retM]. rewrite app_nil_r. eauto.
  - intros css. rewrite asset_resolver_one. cbn [fst snd]. rewrite app_nil_r.
    now apply asset_body_root_relative.
Qed.

Lemma root_relative_skipped_when_logging_witness :
  (forall fuel css,
     exists t,
       test_import_resolver defaults empty_net no_re_error fuel
         [lit "/local/file.css"] css = Some (css, t)
       /\ requested t = [])
  /\ (forall css,
        fst (test_asset_resolver defaults empty_net [lit "/local/file.css"] css)
        = css
        /\ requested (snd (test_asset_resolver defaults empty_net
                             [lit "/local/file.css"] css)) = []).
Proof.
  apply (root_relative_skipped_when_logging defaults empty_net no_re_error
           (lit "/local/file.css")); reflexivity.
Defined.

(** * The examples of the specification *)

(** The end-to-end example: the asset of the imported stylesheet is
    inlined, and neither the [@import] nor the asset URL is left. *)
Example end_to_end :
  doc (test_resolve_css defaults example_net no_re_error 2
         (lit "@import url(" ++ [dq] ++ lit "http://h/sub.css" ++ [dq]
          ++ lit ");"))
  = Some (lit ".x{background:url(data:image/png;base64,/w==)}").
Proof. vm_compute. reflexivity. Qed.

(** The Asset Extractor returns both URLs in the order they stand in. *)
Example asset_extractor_two_urls :
  fst (test_asset_extractor defaults
         (lit ".a{background:url(http://x/img.png)} .b{background:url('http://x/img2.png')}"))
  = [lit "http://x/img.png"; lit "http://x/img2.png"].
Proof. vm_compute. reflexivity. Qed.

(** The Minifier takes the comment out and collapses the blanks around
    it. *)
Example minify_removes_comment :
  test_minify_css (lit "a { color: red; } /* comment */ b { color: blue; }")
  = lit "a { color: red; } b { color: blue; }".
Proof. vm_compute. reflexivity. Qed.

(** A stylesheet with a pair of backslashes is not put in as it is:
    [re.sub] reads the text as a template and keeps one backslash. *)
Example import_with_backslashes :
  doc (import_body defaults
         (fun url _ =>
            if str_eqb url (lit "http://h/q.css")
            then ok (lit ".q:after{content:'\\'}") [] (lit "text/css")
            else not_found)
         no_re_error
         (test_resolve_css defaults
            (fun _ _ => not_found) no_re_error 1)
         (lit "@import 'http://h/q.css';") (lit "http://h/q.css"))
  = Some (lit ".q:after{content:'\'}").
Proof. vm_compute. reflexivity. Qed.

(* ===================================================================== *)
(** * More of the program *)
(* ===================================================================== *)

Import ExtractorFacts PipelineFacts MinifyFacts.

(** ** The extractors *)

(** X1.  No URL the Import Extractor returns holds a semicolon or a
    newline: the lazy group ends at the first semicolon at the latest, and
    the dot matches no newline. *)
Theorem import_extractor_urls_stop_at_semicolon css :
  Forall (fun u => forallb import_url_char u = true)
         (test_import_extractor css).
Proof.
  unfold test_import_extractor. apply findall_group_all.
  intros s cs rest H. exact (import_re_capture s cs rest H).
Qed.

(** X2.  No URL the Asset Extractor returns holds a closing parenthesis or
    a newline. *)
Theorem asset_extractor_urls_stop_at_paren g css :
  Forall (fun u => forallb asset_url_char u = true)
         (fst (test_asset_extractor g css)).
Proof.
  unfold test_asset_extractor. rewrite fst_bindW. cbn [retW fst].
  apply findall_group_all.
  intros s cs rest H. exact (asset_re_capture s cs rest H).
Qed.

(** X3.  On a stylesheet made of [url(...)] references, bare or quoted,
    with any text free of an opening parenthesis between them, the Asset
    Extractor returns the URL of every reference, in the order of the
    references and with repeated URLs repeated. *)
Theorem asset_extractor_in_order g items tail :
  forallb asset_item_ok items = true -> no_paren tail = true ->
  fst (test_asset_extractor g (asset_sheet items tail)) = map a_url items.
Proof.
  intros Hi Ht. unfold test_asset_extractor. rewrite fst_bindW.
  cbn [retW fst]. unfold findall_group, asset_sheet.
  induction items as [|i items IH].
  - simpl. rewrite <- (app_nil_r tail).
    rewrite scan_asset_before; [reflexivity | exact Ht | now left].
  - simpl in Hi. apply andb_prop in Hi. destruct Hi as [Hok Hi].
    cbn [flat_map map]. unfold asset_text at 1. rewrite <- !app_assoc.
    rewrite scan_asset_before.
    + destruct (asset_re_ref i (flat_map asset_text items ++ tail) Hok)
        as (cs & H & G).
      rewrite (scan_hit asset_re (asset_ref i) _ cs); [|discriminate|exact H].
      cbn [matches_group]. rewrite G. f_equal. now apply IH.
    + unfold asset_item_ok in Hok. rewrite !andb_true_iff in Hok. tauto.
    + right. unfold asset_ref. rewrite <- app_assoc. eauto.
Qed.

Lemma asset_extractor_in_order_witness :
  fst (test_asset_extractor defaults
         (asset_sheet
            [ {| a_before := lit ".a{background:"; a_open := [];
                 a_url := lit "http://x/img.png"; a_close := [] |};
              {| a_before := lit "} .b{background:"; a_open := [sq];
                 a_url := lit "http://x/img2.png"; a_close := [sq] |};
              {| a_before := lit "} .c{background:"; a_open := [dq];
                 a_url := lit "http://x/img.png"; a_close := [dq] |} ]
            (lit "}")))
  = [lit "http://x/img.png"; lit "http://x/img2.png"; lit "http://x/img.png"].
Proof.
  apply (asset_extractor_in_order defaults
           [ {| a_before := lit ".a{background:"; a_open := [];
                a_url := lit "http://x/img.png"; a_close := [] |};
             {| a_before := lit "} .b{background:"; a_open := [sq];
                a_url := lit "http://x/img2.png"; a_close := [sq] |};
             {| a_before := lit "} .c{background:"; a_open := [dq];
                a_url := lit "http://x/img.png"; a_close := [dq] |} ]
           (lit "}")); reflexivity.
Defined.

(** ** The asset loop *)

(** X4.  The Asset Resolver calls [requests.get] once for every URL of its
    list that it does not pass over, in the order of the list, whatever the
    answers are: a URL that stands twice is fetched twice, and a failed
    fetch is not tried again. *)
Theorem asset_resolver_requests g requests_get urls css :
  requested (snd (test_asset_resolver g requests_get urls css))
  = filter (fetched g) urls.
Proof.
  revert css. induction urls as [|url urls IH]; intros css; [reflexivity|].
  cbn [test_asset_resolver filter].
  rewrite snd_bindW, requested_app, asset_body_requested, IH.
  unfold fetched at 2.
  destruct (contains (lit "data:") url); [reflexivity|].
  now destruct (startswith (lit "/") url && mem (log_level g) [1; 2]).
Qed.

(** X5.  When the answer has no content-type header, the data URI the
    Asset Resolver writes reads [data:None;base64,...]. *)
Theorem asset_without_content_type g requests_get url css response :
  contains (lit "data:") url = false ->
  startswith (lit "/") url && mem (log_level g) [1; 2] = false ->
  requests_get url (headers g) = Got response ->
  status_code response = 200%N ->
  content_type response = None ->
  fst (test_asset_resolver g requests_get [url] css)
  = replace url (lit "data:None;base64," ++ b64encode (content response)) css.
Proof.
  intros D S G St Ct. rewrite asset_resolver_one. cbn [fst].
  rewrite (asset_body_200 g requests_get css url response D S G St), Ct.
  reflexivity.
Qed.

Lemma asset_without_content_type_witness :
  fst (test_asset_resolver quiet
         (fun _ _ => Got {| status_code := 200; text := []; content := [255%N];
                            content_type := None |})
         [lit "http://h/i.png"] (lit "a{background:url(http://h/i.png)}"))
  = replace (lit "http://h/i.png")
      (lit "data:None;base64," ++ b64encode [255%N])
      (lit "a{background:url(http://h/i.png)}").
Proof.
  apply (asset_without_content_type quiet _ (lit "http://h/i.png") _
           {| status_code := 200; text := []; content := [255%N];
              content_type := None |}); reflexivity.
Defined.

(** ** The import loop *)

(** X6.  After it has embedded an import, the Import Resolver logs
    [Failed to download: <url>] with the prefix [200]: the call stands in
    the branch of the status 200 and under no test of the log level. *)
Theorem import_success_logs_failure
  g requests_get re_error fuel url css response r t :
  startswith (lit "/") url && mem (log_level g) [1; 2] = false ->
  requests_get url (headers g) = Got response ->
  status_code response = 200%N ->
  test_resolve_css g requests_get re_error fuel (text response) = Some (r, t) ->
  plain r = true ->
  exists t0,
    test_import_resolver g requests_get re_error fuel [url] css
    = Some (sub_plain (import_stmt_re url) r css,
            t0 ++ snd (_log g (lit "Failed to download: " ++ url)
                              (Some (lit "200")))).
Proof.
  intros S G C R B. unfold test_import_resolver. cbn [import_loop].
  unfold import_body.
  rewrite bindM_lift, S, !bindM_lift, G, C, N.eqb_refl, !bindM_lift.
  cbn [fst snd]. rewrite R. cbn [bindM].
  rewrite (sub_plain_spec 0 (import_stmt_re url) r css B).
  rewrite bindM_lift. cbn [retM fst snd].
  change (str_of_N 200) with (lit "200").
  unfold retM. cbn [bindM]. rewrite !app_nil_r, !app_assoc.
  eexists. reflexivity.
Qed.

Lemma import_success_logs_failure_witness :
  exists t0,
    test_import_resolver quiet empty_net no_re_error 1
      [lit "http://h/a.css"] (lit "@import 'http://h/a.css';b{}")
    = Some (sub_plain (import_stmt_re (lit "http://h/a.css")) []
              (lit "@import 'http://h/a.css';b{}"),
            t0 ++ snd (_log quiet (lit "Failed to download: "
                                   ++ lit "http://h/a.css")
                              (Some (lit "200")))).
Proof.
  apply (import_success_logs_failure quiet empty_net no_re_error 1
           (lit "http://h/a.css") (lit "@import 'http://h/a.css';b{}")
           {| status_code := 200; text := []; content := [];
              content_type := Some (lit "text/css") |} [] []);
    reflexivity.
Defined.

(** X7.  An imported stylesheet is handed to [re.sub] as the replacement
    and read as a template: where it holds two backslashes in a row, one is
    embedded. *)
Theorem import_halves_backslash_pairs
  g requests_get re_error fuel url css response a b t :
  startswith (lit "/") url && mem (log_level g) [1; 2] = false ->
  requests_get url (headers g) = Got response ->
  status_code response = 200%N ->
  test_resolve_css g requests_get re_error fuel (text response)
    = Some (a ++ [92; 92] ++ b, t)%N ->
  plain a = true -> plain b = true ->
  doc (test_import_resolver g requests_get re_error fuel [url] css)
  = Some (sub_plain (import_stmt_re url) (a ++ [92%N] ++ b) css).
Proof.
  intros S G C R Ha Hb. unfold test_import_resolver. cbn [import_loop].
  rewrite doc_bindM.
  rewrite (import_body_200 g requests_get re_error _ css url response _ t
             S G C R).
  unfold sub. rewrite parse_template_backslash_pair by assumption.
  reflexivity.
Qed.

Lemma import_halves_backslash_pairs_witness :
  doc (test_import_resolver quiet
         (fun url _ =>
            if contains (lit "q.css") url
            then ok (lit ".q:after{content:'\\'}") [] (lit "text/css")
            else not_found)
         no_re_error 1 [lit "http://h/q.css"] (lit "@import 'http://h/q.css';"))
  = Some (sub_plain (import_stmt_re (lit "http://h/q.css"))
            (lit ".q:after{content:'" ++ [92%N] ++ lit "'}")
            (lit "@import 'http://h/q.css';")).
Proof.
  apply (import_halves_backslash_pairs quiet _ no_re_error 1
           (lit "http://h/q.css") (lit "@import 'http://h/q.css';")
           {| status_code := 200; text := lit ".q:after{content:'\\'}";
              content := []; content_type := Some (lit "text/css") |}
           (lit ".q:after{content:'") (lit "'}") []);
    reflexivity.
Defined.

(** X8.  An imported stylesheet that ends in a single backslash is refused
    by [re.sub] as a template; the exception is caught and the [@import]
    statement stays in the document. *)
Theorem import_refused_on_trailing_backslash
  g requests_get re_error fuel url css response a t :
  startswith (lit "/") url && mem (log_level g) [1; 2] = false ->
  requests_get url (headers g) = Got response ->
  status_code response = 200%N ->
  test_resolve_css g requests_get re_error fuel (text response)
    = Some (a ++ [92%N], t) ->
  plain a = true ->
  doc (test_import_resolver g requests_get re_error fuel [url] css) = Some css.
Proof.
  intros S G C R Ha. unfold test_import_resolver. cbn [import_loop].
  rewrite doc_bindM.
  rewrite (import_body_200 g requests_get re_error _ css url response _ t
             S G C R).
  unfold sub. rewrite parse_template_trailing_backslash by assumption.
  reflexivity.
Qed.

Lemma import_refused_on_trailing_backslash_witness :
  doc (test_import_resolver quiet
         (fun url _ =>
            if contains (lit "q.css") url
            then ok (lit "/* a\") [] (lit "text/css")
            else not_found)
         no_re_error 1 [lit "http://h/q.css"] (lit "@import 'http://h/q.css';"))
  = Some (lit "@import 'http://h/q.css';").
Proof.
  apply (import_refused_on_trailing_backslash quiet _ no_re_error 1
           (lit "http://h/q.css") (lit "@import 'http://h/q.css';")
           {| status_code := 200; text := lit "/* a\";
              content := []; content_type := Some (lit "text/css") |}
           (lit "/* a") []);
    reflexivity.
Defined.

(** ** The minifier *)

(** X9.  The Minifier never lengthens its input. *)
Theorem minify_never_longer x :
  (length (test_minify_css x) <= length x)%nat.
Proof.
  etransitivity; [apply minify_length|].
  exact (proj1 (sub_plain_delete_length comment_re x)).
Qed.

(** X10.  What the Minifier returns is in normal form for blanks: every
    blank in it is a space character with no blank next to it, and it
    neither begins nor ends with a blank. *)
Theorem minify_normal_form x :
  tidy false (test_minify_css x) = true
  /\ (forall c, first_char (test_minify_css x) = Some c -> is_space c = false)
  /\ (forall c, last_char (test_minify_css x) = Some c -> is_space c = false).
Proof.
  split; [apply minify_tidy|].
  rewrite <- (minify_strip x). apply strip_ends.
Qed.

(** X11.  On a text without a slash the Minifier is idempotent: no comment
    can begin, neither in the text nor in what the first pass returns. *)
Theorem minify_idempotent_without_slash x :
  no_slash x = true ->
  test_minify_css (test_minify_css x) = test_minify_css x.
Proof.
  intros H. pose proof (no_slash_minify x H) as Hm.
  unfold test_minify_css at 1.
  rewrite (remove_comments_no_slash _ Hm), collapse_spaces_squeeze.
  rewrite squeeze_tidy by apply minify_tidy. apply minify_strip.
Qed.

Lemma minify_idempotent_without_slash_witness :
  test_minify_css (test_minify_css (lit "  a {  color : red ; }  b{} "))
  = test_minify_css (lit "  a {  color : red ; }  b{} ").
Proof.
  apply (minify_idempotent_without_slash (lit "  a {  color : red ; }  b{} ")).
  reflexivity.
Defined.

(** X12.  A comment whose body holds no star, standing after text that
    holds no slash, leaves no trace: the Minifier returns what it returns
    for the text without the comment, whatever follows the comment. *)
Theorem minify_drops_comment a body stars b :
  no_slash a = true -> no_star body = true ->
  stars <> [] -> forallb (char_eqb 42%N) stars = true ->
  test_minify_css (a ++ (lit "/*" ++ body ++ stars ++ [47%N]) ++ b)
  = test_minify_css (a ++ b).
Proof.
  intros Ha Hb Hs Hs'.
  assert (E : remove_comments (a ++ (lit "/*" ++ body ++ stars ++ [47%N]) ++ b)
              = remove_comments (a ++ b)).
  { rewrite (remove_comments_before a b Ha).
    rewrite (remove_comments_before a _ Ha). f_equal.
    unfold remove_comments, sub_plain.
    rewrite (scan_hit comment_re (lit "/*" ++ body ++ stars ++ [47%N]) b []).
    - reflexivity.
    - discriminate.
    - etransitivity; [|exact (comment_re_simple body stars b Hb Hs Hs')].
      f_equal. now rewrite <- !app_assoc. }
  unfold test_minify_css. now rewrite E.
Qed.

Lemma minify_drops_comment_witness :
  test_minify_css (lit "a { color: red; } "
                   ++ (lit "/*" ++ lit " comment " ++ lit "*" ++ [47%N])
                   ++ lit " b { color: blue; }")
  = test_minify_css (lit "a { color: red; } " ++ lit " b { color: blue; }").
Proof.
  apply (minify_drops_comment (lit "a { color: red; } ") (lit " comment ")
           (lit "*") (lit " b { color: blue; }"));
    [reflexivity | reflexivity | discriminate | reflexivity].
Defined.

(** ** The entry point *)

(** X13.  When the path is a URL and the request for the global [filepath]
    is answered, whatever the status of the answer, [test_extract] does not
    return: it raises the [NameError] of [resolve_css], a name the file
    binds nowhere, after that one request, whatever [compress] is. *)
Theorem extract_answered_url_raises_name_error
  g requests_get fs path compress response :
  startswith (lit "http") path && contains (lit "://") path = true ->
  requests_get (filepath g) (headers g) = Got response ->
  exists t,
    test_extract g requests_get fs path compress
    = Some (Raises (lit "name 'resolve_css' is not defined"), t)
    /\ requested t = [filepath g].
Proof.
  intros U G. unfold test_extract. rewrite U, !bindM_lift, G.
  eexists. split; [reflexivity|].
  cbn [retM fst snd]. rewrite !requested_app.
  unfold when, _log.
  destruct (mem (log_level g) [1; 2]), (mem (log_method g) [2; 3]),
    (mem (log_method g) [1; 3]); reflexivity.
Qed.

Lemma extract_answered_url_raises_name_error_witness :
  exists t,
    test_extract
      {| filepath := lit "http://h/root.css"; log_method := 1;
         log_level := 1; headers := None |}
      empty_net no_files (lit "http://h/root.css") false
    = Some (Raises (lit "name 'resolve_css' is not defined"), t)
    /\ requested t = [lit "http://h/root.css"].
Proof.
  apply (extract_answered_url_raises_name_error
           {| filepath := lit "http://h/root.css"; log_method := 1;
              log_level := 1; headers := None |}
           empty_net no_files (lit "http://h/root.css") false
           {| status_code := 200; text := []; content := [];
              content_type := Some (lit "text/css") |}); reflexivity.
Defined.



(** X15.  Unlike the resolvers, [test_extract] does not catch what
    [requests.get] raises for the root document: the exception leaves the
    function, after the one request and before anything is resolved. *)
Theorem extract_root_fetch_error_propagates
  g requests_get fs path compress msg :
  startswith (lit "http") path && contains (lit "://") path = true ->
  requests_get (filepath g) (headers g) = Raised msg ->
  exists t,
    test_extract g requests_get fs path compress
    = Some (Raises msg, t)
    /\ requested t = [filepath g].
Proof.
  intros U G. unfold test_extract. rewrite U, !bindM_lift, G.
  eexists. split; [reflexivity|].
  cbn [retM fst snd]. rewrite !requested_app.
  unfold when, _log.
  destruct (mem (log_level g) [1; 2]), (mem (log_method g) [2; 3]),
    (mem (log_method g) [1; 3]); reflexivity.
Qed.

Lemma extract_root_fetch_error_propagates_witness :
  exists t,
    test_extract
      {| filepath := lit "http://h/root.css"; log_method := 1;
         log_level := 1; headers := None |}
      (fun _ _ => Raised (lit "Connection refused"))
      no_files (lit "http://h/root.css") true
    = Some (Raises (lit "Connection refused"), t)
    /\ requested t = [lit "http://h/root.css"].
Proof.
  apply (extract_root_fetch_error_propagates
           {| filepath := lit "http://h/root.css"; log_method := 1;
              log_level := 1; headers := None |}
           (fun _ _ => Raised (lit "Connection refused"))
           no_files (lit "http://h/root.css") true
           (lit "Connection refused")); reflexivity.
Defined.

(** ** What a run does to the outside *)

(** X16.  Every request of a run carries the global [headers]: the request
    of [test_extract] for the root document, and every request of
    [test_resolve_css], for an import at any depth or for an asset. *)
Theorem extract_requests_carry_headers
  g requests_get fs re_error fuel path compress css :
  (forall o t,
     test_extract g requests_get fs path compress = Some (o, t) ->
     Forall (with_headers (headers g)) t)
  /\ (forall r t,
        test_resolve_css g requests_get re_error fuel css = Some (r, t) ->
        Forall (with_headers (headers g)) t).
Proof.
  split.
  - apply (all_extract g requests_get fs (with_headers (headers g)));
      try (intros; exact I); try reflexivity.
    intros content prefix. apply log_headers.
  - apply (all_resolve_css g requests_get re_error (with_headers (headers g)));
      try reflexivity.
    intros content prefix. apply log_headers.
Qed.

Lemma extract_requests_carry_headers_witness :
  Forall (with_headers (Some (lit "UA")))
    [Get (lit "http://h/sub.css") (Some (lit "UA"));
     Get (lit "http://h/i.png") (Some (lit "UA"))].
Proof.
  apply (proj2 (extract_requests_carry_headers
                  {| filepath := lit "http://h/r.css"; log_method := 0;
                     log_level := 0; headers := Some (lit "UA") |}
                  example_net no_files no_re_error 2 (lit "http://h/r.css")
                  false (lit "@import 'http://h/sub.css';"))
           (lit ".x{background:url(data:image/png;base64,/w==)}")).
  reflexivity.
Defined.

(** X17.  With the log method 0 a run prints nothing and writes no line to
    the log file, at any log level: neither [test_extract] nor
    [test_resolve_css]. *)
Theorem extract_silent_at_log_method_0
  g requests_get fs re_error fuel path compress css :
  log_method g = 0%N ->
  (forall o t,
     test_extract g requests_get fs path compress = Some (o, t) ->
     Forall not_log t)
  /\ (forall r t,
        test_resolve_css g requests_get re_error fuel css = Some (r, t) ->
        Forall not_log t).
Proof.
  intros L. split.
  - apply (all_extract g requests_get fs not_log); try reflexivity.
    intros content prefix. now apply log_silent.
  - apply (all_resolve_css g requests_get re_error not_log); try reflexivity.
    intros content prefix. now apply log_silent.
Qed.

Lemma extract_silent_at_log_method_0_witness :
  (forall o t,
     test_extract
       {| filepath := lit "http://h/r.css"; log_method := 0;
          log_level := 2; headers := None |}
       example_net no_files (lit "http://h/r.css") true = Some (o, t) ->
     Forall not_log t)
  /\ (forall r t,
        test_resolve_css
          {| filepath := lit "http://h/r.css"; log_method := 0;
             log_level := 2; headers := None |}
          example_net no_re_error 2 (lit "@import 'http://h/sub.css';")
        = Some (r, t) ->
        Forall not_log t).
Proof.
  apply (extract_silent_at_log_method_0
           {| filepath := lit "http://h/r.css"; log_method := 0;
              log_level := 2; headers := None |}
           example_net no_files no_re_error 2 (lit "http://h/r.css") true
           (lit "@import 'http://h/sub.css';")).
  reflexivity.
Defined.

(** X18.  [test_resolve_css] never reads a file, nor tests whether one
    exists: an import or an asset is asked of [requests.get] or passed
    over, also when the stylesheet came from a local file and refers to a
    path beside it. *)
Theorem resolve_css_reads_no_file g requests_get re_error fuel css r t :
  test_resolve_css g requests_get re_error fuel css = Some (r, t) ->
  Forall reads_no_file t.
Proof.
  apply (all_resolve_css g requests_get re_error reads_no_file).
  - intros url. exact I.
  - intros content prefix. unfold _log, allW, when, tell, retW.
    destruct (mem (log_method g) [2; 3]), (mem (log_method g) [1; 3]);
      simpl; repeat constructor.
Qed.

Lemma resolve_css_reads_no_file_witness :
  Forall reads_no_file [Get (lit "other.css") None].
Proof.
  apply (resolve_css_reads_no_file quiet empty_net no_re_error 1
           (lit "@import 'other.css';") (lit "@import 'other.css';")).
  reflexivity.
Defined.

(** X19.  [test_extract] never returns a stylesheet: every call ends in
    the bare [return] for a file that is missing, or in an exception. *)
Theorem extract_never_returns_text g requests_get fs path compress o t :
  test_extract g requests_get fs path compress = Some (o, t) ->
  o = Returns None \/ exists msg, o = Raises msg.
Proof.
  unfold test_extract.
  destruct (startswith (lit "http") path && contains (lit "://") path).
  - rewrite !bindM_lift.
    destruct (requests_get (filepath g) (headers g));
      intros H; injection H as <- _; right; eauto.
  - rewrite !bindM_lift.
    destruct (fs (filepath g));
      intros H; injection H as <- _; [right | left]; eauto.
Qed.

Lemma extract_never_returns_text_witness :
  Raises (lit "name 'resolve_css' is not defined") = Returns None
  \/ exists msg, Raises (lit "name 'resolve_css' is not defined") = Raises msg.
Proof.
  apply (extract_never_returns_text
           {| filepath := lit "style.css"; log_method := 1;
              log_level := 1; headers := None |}
           empty_net (one_file (lit "style.css") (lit "a { } "))
           (lit "style.css") true _
           [Exists (lit "style.css"); Read (lit "style.css")]).
  reflexivity.
Defined.
